(** * SimplexNoise: 2D simplex noise, fBm and the SplitMix32-seeded tables

    A shallow embedding of [simplex_noise_2d.js].  JavaScript numbers are
    IEEE 754 binary64 values, modelled by the Standard Library's executable
    specification [SpecFloat] at precision 53 and maximal exponent 1024.
    Numbers that the program only ever uses as small integers (loop
    counters, table indices, table entries, the 32-bit generator state) are
    kept in [Z], and every conversion between the two worlds ([ToInt32],
    [ToUint32], integer to double) is written out. *)

From Stdlib Require Import ZArith Bool Lia.
From Stdlib Require Import Floats.SpecFloat.
From stdpp Require Import base list.

Local Open Scope Z_scope.

(** ** IEEE 754 binary64 *)

Module JS.

Definition prec : Z := 53.
Definition emax : Z := 1024.

Definition number := spec_float.

Definition add : number -> number -> number := SFadd prec emax.
Definition sub : number -> number -> number := SFsub prec emax.
Definition mul : number -> number -> number := SFmul prec emax.
Definition div : number -> number -> number := SFdiv prec emax.
Definition sqrt : number -> number := SFsqrt prec emax.
Definition neg : number -> number := SFopp.
Definition ltb : number -> number -> bool := SFltb.
Definition leb : number -> number -> bool := SFleb.
Definition eqb : number -> number -> bool := SFeqb.

(** [a > b] is [b < a]; both are false as soon as one side is NaN. *)
Definition gtb (a b : number) : bool := ltb b a.

(** The double nearest to the integer [z] (exact when |z| < 2^53). *)
Definition of_Z (z : Z) : number := binary_normalize prec emax z 0 false.

(** The double nearest to [m * 2^e]. *)
Definition dyadic (m e : Z) : number := binary_normalize prec emax m e false.

Definition pzero : number := S754_zero false.
Definition nzero : number := S754_zero true.
Definition nan : number := S754_nan.

(** [Math.floor]: NaN, the infinities and the zeros are returned as they
    are; a finite value with a non-negative exponent is already an
    integer; otherwise the signed mantissa is shifted right, which
    rounds towards minus infinity. *)
Definition floor (x : number) : number :=
  match x with
  | S754_finite s m e =>
      if 0 <=? e then x
      else
        of_Z (Z.shiftr (cond_Zopp s (Zpos m)) (- e))
  | _ => x
  end.

(** The integer part of a finite double, rounded towards zero. *)
Definition trunc (x : number) : Z :=
  match x with
  | S754_finite s m e => cond_Zopp s (Z.shiftl (Zpos m) e)
  | _ => 0
  end.

Definition wrap_int32 (z : Z) : Z := (z + 2 ^ 31) mod 2 ^ 32 - 2 ^ 31.
Definition wrap_uint32 (z : Z) : Z := z mod 2 ^ 32.

(** [ToInt32] and [ToUint32] of the language: NaN, infinities and zeros
    go to 0, anything else is truncated and reduced modulo 2^32. *)
Definition ToInt32 (x : number) : Z := wrap_int32 (trunc x).
Definition ToUint32 (x : number) : Z := wrap_uint32 (trunc x).

(** The 32-bit integer operators, on numbers that hold integers.  Each
    operand goes through [ToInt32] (or [ToUint32] for the left operand
    of [>>>]) and the result is again a 32-bit integer. *)
Definition bor (a b : Z) : Z := wrap_int32 (Z.lor (wrap_int32 a) (wrap_int32 b)).
Definition band (a b : Z) : Z := wrap_int32 (Z.land (wrap_int32 a) (wrap_int32 b)).
Definition bxor (a b : Z) : Z := wrap_int32 (Z.lxor (wrap_int32 a) (wrap_int32 b)).
Definition ushr (a n : Z) : Z := Z.shiftr (wrap_uint32 a) (Z.land n 31).
Definition imul (a b : Z) : Z := wrap_int32 (wrap_int32 a * wrap_int32 b).

(** [for (let i = 0; i < bound; i++) body]: the loop as the source runs
    it, with the counter tested before every iteration.  [bound]
    iterations of fuel are always enough. *)
Fixpoint for_loop {S : Type} (fuel : nat) (i bound : Z)
    (body : Z -> S -> S) (s : S) : S :=
  match fuel with
  | O => s
  | Datatypes.S fuel' =>
      if i <? bound then for_loop fuel' (i + 1) bound body (body i s) else s
  end.

Definition for_upto {S : Type} (bound : Z) (body : Z -> S -> S) (s : S) : S :=
  for_loop (Z.to_nat bound) 0 bound body s.

End JS.

Declare Scope js_scope.
Delimit Scope js_scope with js.
Infix "+" := JS.add : js_scope.
Infix "-" := JS.sub : js_scope.
Infix "*" := JS.mul : js_scope.
Infix "/" := JS.div : js_scope.
Notation "- x" := (JS.neg x) : js_scope.
Infix "<?" := JS.ltb : js_scope.
Infix ">?" := JS.gtb : js_scope.

(** ** Typed arrays of unsigned bytes *)

Module Uint8Array.

(** [new Uint8Array(n)]: [n] zero bytes. *)
Definition make (n : Z) : list Z := replicate (Z.to_nat n) 0.

(** [a[i]]: [None] stands for [undefined], the result of a read outside
    the array. *)
Definition get (a : list Z) (i : Z) : option Z :=
  if i <? 0 then None else a !! Z.to_nat i.

(** A read at an index that is itself the result of arithmetic on a
    read: an [undefined] operand makes the index NaN, and the read
    [undefined]. *)
Definition get_at (a : list Z) (i : option Z) : option Z :=
  i ≫= get a.

(** The byte stored for a value: integers are reduced modulo 256,
    [undefined] becomes NaN and is stored as 0. *)
Definition ToUint8 (v : option Z) : Z :=
  match v with
  | Some z => z mod 256
  | None => 0
  end.

(** [a[i] = v]: a write outside the array is ignored. *)
Definition set (a : list Z) (i : Z) (v : option Z) : list Z :=
  if i <? 0 then a else <[Z.to_nat i := ToUint8 v]> a.

End Uint8Array.

(** ** The program *)

Definition tableSize : Z := 512.

(** The two module-level tables, [perm] and [permMod12]. *)
Record tables : Type := Tables { perm : list Z; permMod12 : list Z }.

(** The tables as the module creates them, before any seeding. *)
Definition initial_tables : tables :=
  Tables (Uint8Array.make tableSize) (Uint8Array.make tableSize).

(** *** SplitMix32 *)

(** One call of the closure returned by [splitmix32 a]: the new value of
    the captured variable [a] and the number returned. *)
Definition splitmix32 (a : Z) : Z * JS.number :=
  let a := JS.bor a 0 in
  let a := JS.bor (a + 0x9e3779b9) 0 in
  let t := JS.bxor a (JS.ushr a 16) in
  let t := JS.imul t 0x21f0aaad in
  let t := JS.bxor t (JS.ushr t 15) in
  let t := JS.imul t 0x735a2d97 in
  let t := JS.bxor t (JS.ushr t 15) in
  (a, (JS.of_Z (JS.ushr t 0) / JS.of_Z 4294967296)%js).

(** *** seed *)

(** The first loop of [seed]: [p[i] = i] for [i < tableSize / 2]. *)
Definition seed_init (p : list Z) : list Z :=
  JS.for_upto (tableSize / 2) (fun i p => Uint8Array.set p i (Some i)) p.

(** One iteration of the shuffle: draw [r], then
    [[p[r], p[i]] = [p[i], p[r]]], which reads both entries and then
    writes [p[r]] before [p[i]]. *)
Definition seed_shuffle_step (i : Z) (st : Z * list Z) : Z * list Z :=
  let '(a, p) := st in
  let '(a', rnd) := splitmix32 a in
  let r := i + JS.ToInt32 (rnd * JS.of_Z (256 - i))%js in
  let p_i := Uint8Array.get p i in
  let p_r := Uint8Array.get p r in
  let p := Uint8Array.set p r p_i in
  let p := Uint8Array.set p i p_r in
  (a', p).

Definition seed_shuffle (k : Z) (p : list Z) : Z * list Z :=
  JS.for_upto (tableSize / 2 - 1) seed_shuffle_step (k, p).

(** One iteration of the last loop: [perm[i] = p[i & 255]] and then
    [permMod12[i] = perm[i] % 12], which reads back the entry just
    written. *)
Definition seed_fill_step (p : list Z) (i : Z) (T : tables) : tables :=
  let perm' := Uint8Array.set (perm T) i (Uint8Array.get p (JS.band i 255)) in
  let pm' :=
    Uint8Array.set (permMod12 T) i
      ((fun v => Z.rem v 12) <$> Uint8Array.get perm' i) in
  Tables perm' pm'.

(** The working array [p] that [seed k] has built when the shuffle ends. *)
Definition seed_working_array (k : Z) : list Z :=
  snd (seed_shuffle k (seed_init (Uint8Array.make tableSize))).

Definition seed (k : Z) (T : tables) : tables :=
  JS.for_upto tableSize (seed_fill_step (seed_working_array k)) T.

(** *** grad *)

Definition grad (hash : Z) (x y : JS.number) : JS.number :=
  let h := JS.band hash 0x0F in
  let u := if h <? 8 then x else y in
  let v := if h <? 4 then y else JS.pzero in
  ((if JS.band h 1 =? 0 then u else - u) +
   (if JS.band h 2 =? 0 then v else - v))%js.

(** *** noise *)

(** Skewing and unskewing factors for 2 dimensions. *)
Definition F2 : JS.number :=
  Eval vm_compute in
    (JS.dyadic 1 (-1) * (JS.sqrt (JS.of_Z 3) - JS.of_Z 1))%js.
Definition G2 : JS.number :=
  Eval vm_compute in
    ((JS.of_Z 3 - JS.sqrt (JS.of_Z 3)) / JS.of_Z 6)%js.

(** [i + di + perm[j + dj]], the index at which [permMod12] is read for
    the corner at offset [(di, dj)]. *)
Definition corner_index (T : tables) (i di j dj : Z) : option Z :=
  (fun v => i + di + v) <$> Uint8Array.get (perm T) (j + dj).

(** [permMod12[i + di + perm[j + dj]]]. *)
Definition gradient_index (T : tables) (i di j dj : Z) : option Z :=
  Uint8Array.get_at (permMod12 T) (corner_index T i di j dj).

(** The hash handed to [grad]: [grad] only uses it under [&], which
    takes [undefined] to 0. *)
Definition hash_of (gi : option Z) : Z := default 0 gi.

(** The contribution of one corner. *)
Definition corner (gi : option Z) (x y : JS.number) : JS.number :=
  let t := (JS.dyadic 1 (-1) - x * x - y * y)%js in
  if (t <? JS.pzero)%js then JS.pzero
  else
    let t := (t * t)%js in
    (t * t * grad (hash_of gi) x y)%js.

(** The part of [noise] that places the input point: the offsets
    [(x0, y0)] from the cell origin, the middle corner [(i1, j1)], and the
    cell coordinates [i] and [j] after [i &= 255] and [j &= 255]. *)
Record cell : Type := Cell {
  cell_x0 : JS.number; cell_y0 : JS.number;
  cell_i1 : Z; cell_j1 : Z;
  cell_i : Z; cell_j : Z
}.

Definition simplex_cell (xin yin : JS.number) : cell :=
  let s := ((xin + yin) * F2)%js in
  let i := JS.floor (xin + s)%js in
  let j := JS.floor (yin + s)%js in
  let t := ((i + j) * G2)%js in
  let x0 := (xin - (i - t))%js in
  let y0 := (yin - (j - t))%js in
  let '(i1, j1) := if (x0 >? y0)%js then (1, 0) else (0, 1) in
  let i := Z.land (JS.ToInt32 i) 255 in
  let j := Z.land (JS.ToInt32 j) 255 in
  Cell x0 y0 i1 j1 i j.

Definition noise (T : tables) (xin yin : JS.number) : JS.number :=
  let '(Cell x0 y0 i1 j1 i j) := simplex_cell xin yin in
  let x1 := (x0 - JS.of_Z i1 + G2)%js in
  let y1 := (y0 - JS.of_Z j1 + G2)%js in
  let x2 := (x0 - JS.of_Z 1 + JS.of_Z 2 * G2)%js in
  let y2 := (y0 - JS.of_Z 1 + JS.of_Z 2 * G2)%js in
  let gi0 := gradient_index T i 0 j 0 in
  let gi1 := gradient_index T i i1 j j1 in
  let gi2 := gradient_index T i 1 j 1 in
  let n0 := corner gi0 x0 y0 in
  let n1 := corner gi1 x1 y1 in
  let n2 := corner gi2 x2 y2 in
  (JS.of_Z 70 * (n0 + n1 + n2))%js.

(** *** fbm *)

(** The loop state of [fbm]: [total], [amplitude], [frequency]. *)
Definition fbm_step (T : tables) (x y persistence lacunarity : JS.number)
    (_ : Z) (st : JS.number * JS.number * JS.number)
    : JS.number * JS.number * JS.number :=
  let '(total, amplitude, frequency) := st in
  let total := (total + noise T (x * frequency) (y * frequency) * amplitude)%js in
  let amplitude := (amplitude * persistence)%js in
  let frequency := (frequency * lacunarity)%js in
  (total, amplitude, frequency).

Definition fbm (T : tables) (x y : JS.number) (octaves : Z)
    (amplitude frequency persistence lacunarity : JS.number) : JS.number :=
  let '(total, _, _) :=
    JS.for_upto octaves (fbm_step T x y persistence lacunarity)
      (JS.pzero, amplitude, frequency) in
  total.

(** ** Well-formed tables *)

(** What the type [Uint8Array] guarantees of an array created with
    [new Uint8Array(n)]: it keeps its [n] entries, and each is a byte. *)
Definition is_Uint8Array (n : Z) (a : list Z) : Prop :=
  length a = Z.to_nat n ∧ Forall (λ v, 0 ≤ v < 256) a.

Definition tables_wf (T : tables) : Prop :=
  is_Uint8Array tableSize (perm T) ∧ is_Uint8Array tableSize (permMod12 T).

(** ** The specification's wording of the algorithms *)

(** The gradient dot function as the specification words it: the two
    low bits of the 4-bit hash decide the signs. *)
Definition grad_spec (hash : Z) (x y : JS.number) : JS.number :=
  let h := Z.land hash 0xF in
  let u := if h <? 8 then x else y in
  let v := if h <? 4 then y else JS.pzero in
  ((if Z.testbit h 0 then - u else u) + (if Z.testbit h 1 then - v else v))%js.

(** The output tables as the specification gives them from the working
    array: [perm[k] = p[k & 255]] and [permMod12[k] = perm[k] mod 12] for
    [k] in 0..511. *)
Definition perm_of (p : list Z) : list Z :=
  (λ k, Uint8Array.ToUint8 (Uint8Array.get p (Z.land k 255))) <$> seqZ 0 512.

Definition tables_of (p : list Z) : tables :=
  Tables (perm_of p) ((λ v, v mod 12) <$> perm_of p).

(** The double whose value is exactly [u * 2^e], for a natural number
    [u] below 2^53: the mantissa is [u] shifted left until it fills 53
    bits, and the exponent is lowered by as much. *)
Definition exact_double (u e : Z) : JS.number :=
  match u with
  | Z.pos _ =>
      S754_finite false (Z.to_pos (u * 2 ^ (52 - Z.log2 u))) (e - (52 - Z.log2 u))
  | _ => S754_zero false
  end.

(** SplitMix32 as the specification words it, on an unsigned 32-bit
    state: the new state and the 32-bit value [t] whose quotient by 2^32
    is returned. *)
Definition splitmix32_spec (a : Z) : Z * Z :=
  let a := (a + 0x9e3779b9) mod 2 ^ 32 in
  let t := Z.lxor a (Z.shiftr a 16) in
  let t := (t * 0x21f0aaad) mod 2 ^ 32 in
  let t := Z.lxor t (Z.shiftr t 15) in
  let t := (t * 0x735a2d97) mod 2 ^ 32 in
  let t := Z.lxor t (Z.shiftr t 15) in
  (a, t).

(** Exchanging two entries of an array. *)
Definition swap (p : list Z) (i r : nat) : list Z :=
  match p !! i, p !! r with
  | Some x, Some y => <[i := y]> (<[r := x]> p)
  | _, _ => p
  end.

(** The shuffle as the specification words it, on a 256-entry array and
    the unsigned generator: at step [i] the draw is [random() = t / 2^32]
    and [r = i + floor (random() * (256 - i))], an integer quotient. *)
Definition shuffle_spec_step (st : Z * list Z) (i : Z) : Z * list Z :=
  let '(a, p) := st in
  let '(a', t) := splitmix32_spec a in
  let r := i + t * (256 - i) / 2 ^ 32 in
  (a', swap p (Z.to_nat i) (Z.to_nat r)).

(** 255 steps, for [i] from 0 to 254, from the identity array. *)
Definition shuffle_spec (k : Z) : list Z :=
  snd (foldl shuffle_spec_step (k mod 2 ^ 32, seqZ 0 256) (seqZ 0 255)).

(** The value of the captured variable [a] after [n] calls of the
    closure that [splitmix32 a] returns. *)
Fixpoint splitmix32_state (n : nat) (a : Z) : Z :=
  match n with
  | O => a
  | S n => fst (splitmix32 (splitmix32_state n a))
  end.

(** Zeros and finite values, as opposed to NaN and the infinities. *)
Definition is_finite (x : JS.number) : bool :=
  match x with
  | S754_zero _ | S754_finite _ _ _ => true
  | _ => false
  end.

(** The value that [amplitude] (or [frequency]) holds in [fbm] when
    octave [n] is sampled: the initial value after [n] multiplications
    by [persistence] (or [lacunarity]). *)
Fixpoint octave_scale (n : nat) (initial ratio : JS.number) : JS.number :=
  match n with
  | O => initial
  | S n => (octave_scale n initial ratio * ratio)%js
  end.

(** Two numbers are the same value: [==] holds between them (it
    identifies +0 and -0), or both are NaN. *)
Definition same_number (a b : JS.number) : Prop :=
  JS.eqb a b = true ∨ (a = JS.nan ∧ b = JS.nan).

(** * Properties *)

(** ** Loops *)

Section ForLoop.
Context {S : Type} (body : Z → S → S).

Lemma for_loop_foldl fuel i bound s :
  (Z.to_nat (bound - i) ≤ fuel)%nat →
  JS.for_loop fuel i bound body s
  = foldl (λ s i, body i s) s (seqZ i (bound - i)).
Proof.
  revert i s. induction fuel as [|fuel IH]; intros i s Hfuel; simpl.
  - unfold seqZ. replace (Z.to_nat (bound - i)) with 0%nat by lia. done.
  - destruct (Z.ltb_spec i bound) as [Hlt|Hge].
    + rewrite seqZ_cons by lia. simpl.
      rewrite IH by lia. f_equal. f_equal; lia.
    + unfold seqZ. replace (Z.to_nat (bound - i)) with 0%nat by lia. done.
Qed.

Lemma for_upto_foldl bound s :
  JS.for_upto bound body s = foldl (λ s i, body i s) s (seqZ 0 bound).
Proof.
  unfold JS.for_upto. rewrite for_loop_foldl by lia.
  by rewrite Z.sub_0_r.
Qed.

(** The invariant rule for a counted loop. *)
Lemma for_upto_ind (P : Z → S → Prop) bound s :
  0 ≤ bound →
  P 0 s →
  (∀ i s, 0 ≤ i < bound → P i s → P (i + 1) (body i s)) →
  P bound (JS.for_upto bound body s).
Proof.
  intros Hb H0 Hstep. rewrite for_upto_foldl.
  assert (∀ n : nat, Z.of_nat n ≤ bound →
    P (Z.of_nat n) (foldl (λ s i, body i s) s (seqZ 0 (Z.of_nat n)))) as Hn.
  { induction n as [|n IH]; intros Hle; [done|].
    rewrite seqZ_S, foldl_app. simpl.
    replace (Z.of_nat (Datatypes.S n)) with (Z.of_nat n + 1) by lia.
    apply Hstep; [lia|]. apply IH. lia. }
  specialize (Hn (Z.to_nat bound)). rewrite Z2Nat.id in Hn by done.
  apply Hn. lia.
Qed.

Lemma for_upto_nonpos bound s : bound ≤ 0 → JS.for_upto bound body s = s.
Proof.
  intros H. unfold JS.for_upto.
  replace (Z.to_nat bound) with 0%nat by lia. done.
Qed.
End ForLoop.
(** ** 32-bit integers *)

Lemma wrap_int32_range z : - 2 ^ 31 ≤ JS.wrap_int32 z < 2 ^ 31.
Proof. unfold JS.wrap_int32. pose proof (Z.mod_pos_bound (z + 2 ^ 31) (2 ^ 32)). lia. Qed.

Lemma wrap_int32_id z : - 2 ^ 31 ≤ z < 2 ^ 31 → JS.wrap_int32 z = z.
Proof. intros H. unfold JS.wrap_int32. rewrite Z.mod_small; lia. Qed.

Lemma wrap_int32_mod z : JS.wrap_int32 z mod 2 ^ 32 = z mod 2 ^ 32.
Proof.
  unfold JS.wrap_int32.
  rewrite Zminus_mod, Z.mod_mod by lia.
  rewrite <- Zminus_mod. f_equal. lia.
Qed.

Lemma wrap_uint32_range z : 0 ≤ JS.wrap_uint32 z < 2 ^ 32.
Proof. unfold JS.wrap_uint32. apply Z.mod_pos_bound. lia. Qed.

Lemma land_15_mod z : Z.land z 15 = z mod 16.
Proof. change 15 with (Z.ones 4). by rewrite Z.land_ones. Qed.

Lemma land_255_mod z : Z.land z 255 = z mod 256.
Proof. change 255 with (Z.ones 8). by rewrite Z.land_ones. Qed.

Lemma land_255_range z : 0 ≤ Z.land z 255 ≤ 255.
Proof. rewrite land_255_mod. pose proof (Z.mod_pos_bound z 256). lia. Qed.

Lemma wrap_int32_mod_dvd z n :
  0 < n → (n | 2 ^ 32) → JS.wrap_int32 z mod n = z mod n.
Proof.
  intros Hn Hdiv.
  rewrite <- (Z.mod_mod_divide (JS.wrap_int32 z) (2 ^ 32) n) by done.
  rewrite wrap_int32_mod. by apply Z.mod_mod_divide.
Qed.

(** [x & 0xF] and [x & 255] on an integer: the wrap to 32 bits does not
    touch the low bits. *)
Lemma band_15 z : JS.band z 15 = Z.land z 15.
Proof.
  unfold JS.band. rewrite (wrap_int32_id 15) by lia.
  rewrite !land_15_mod.
  rewrite wrap_int32_mod_dvd by (try lia; by exists (2 ^ 28)).
  apply wrap_int32_id. pose proof (Z.mod_pos_bound z 16). lia.
Qed.

Lemma band_255 z : JS.band z 255 = Z.land z 255.
Proof.
  unfold JS.band. rewrite (wrap_int32_id 255) by lia.
  rewrite !land_255_mod.
  rewrite wrap_int32_mod_dvd by (try lia; by exists (2 ^ 24)).
  apply wrap_int32_id. pose proof (Z.mod_pos_bound z 256). lia.
Qed.

(** ** grad *)

(** C9: for every integer hash and all numbers x and y, [grad] computes
    what the specification says: with h = hash & 0xF, u = x if h < 8 else
    y, v = y if h < 4 else 0, the result is (u if bit 0 of h is 0 else -u)
    + (v if bit 1 of h is 0 else -v). *)
Theorem grad_matches_spec (hash : Z) (x y : JS.number) :
  grad hash x y = grad_spec hash x y.
Proof.
  unfold grad, grad_spec. rewrite band_15.
  pose proof (Z.mod_pos_bound hash 16) as Hh.
  rewrite land_15_mod in *. set (h := hash mod 16) in *.
  assert (h ∈ seqZ 0 16) as Hin by (apply elem_of_seqZ; lia).
  vm_compute seqZ in Hin.
  repeat (apply elem_of_cons in Hin as [->|Hin]; [reflexivity|]).
  by apply elem_of_nil in Hin.
Qed.

(** ** fbm *)

Lemma fbm_no_octaves T x y octaves amplitude frequency persistence lacunarity :
  octaves ≤ 0 →
  fbm T x y octaves amplitude frequency persistence lacunarity = JS.pzero.
Proof. intros H. unfold fbm. by rewrite for_upto_nonpos. Qed.

(** C7: with zero octaves the loop body never runs and [fbm] returns the
    initial [total], which is (positive) zero, whatever the coordinates
    and the other parameters are. *)
Theorem fbm_zero_octaves T x y amplitude frequency persistence lacunarity :
  fbm T x y 0 amplitude frequency persistence lacunarity = JS.pzero.
Proof. by apply fbm_no_octaves. Qed.

(** ** Typed arrays *)

#[global] Instance is_Uint8Array_dec n a : Decision (is_Uint8Array n a).
Proof. unfold is_Uint8Array. apply _. Defined.

#[global] Instance tables_wf_dec T : Decision (tables_wf T).
Proof. unfold tables_wf. apply _. Defined.

Lemma Uint8Array_get_Some n a i :
  is_Uint8Array n a → 0 ≤ i < n →
  ∃ v, Uint8Array.get a i = Some v ∧ 0 ≤ v < 256.
Proof.
  intros [Hlen Hall] Hi. unfold Uint8Array.get.
  destruct (Z.ltb_spec i 0) as [?|_]; [lia|].
  destruct (lookup_lt_is_Some_2 a (Z.to_nat i)) as [v Hv]; [lia|].
  exists v. split; [done|].
  by apply (Forall_lookup_1 _ _ _ _ Hall Hv).
Qed.

Lemma Uint8Array_get_None a i :
  i < 0 ∨ Z.of_nat (length a) ≤ i → Uint8Array.get a i = None.
Proof.
  intros Hi. unfold Uint8Array.get.
  destruct (Z.ltb_spec i 0) as [?|?]; [done|].
  apply lookup_ge_None_2. lia.
Qed.

Lemma ToUint8_range v : 0 ≤ Uint8Array.ToUint8 v < 256.
Proof. destruct v as [z|]; simpl; [apply Z.mod_pos_bound|]; lia. Qed.

Lemma Uint8Array_set_wf n a i v :
  is_Uint8Array n a → is_Uint8Array n (Uint8Array.set a i v).
Proof.
  intros [Hlen Hall]. unfold Uint8Array.set.
  destruct (i <? 0); [done|]. split.
  - by rewrite length_insert.
  - apply Forall_insert; [done|]. apply ToUint8_range.
Qed.

Lemma Uint8Array_make_wf n : is_Uint8Array n (Uint8Array.make n).
Proof.
  split; [apply length_replicate|].
  apply Forall_replicate. lia.
Qed.

Lemma initial_tables_wf : tables_wf initial_tables.
Proof. split; apply Uint8Array_make_wf. Qed.

(** ** Table reads of noise *)

Lemma simplex_cell_middle xin yin :
  let c := simplex_cell xin yin in
  (cell_i1 c, cell_j1 c) = (1, 0) ∨ (cell_i1 c, cell_j1 c) = (0, 1).
Proof.
  unfold simplex_cell.
  destruct (JS.gtb _ _); simpl; auto.
Qed.

Lemma simplex_cell_masked xin yin :
  let c := simplex_cell xin yin in
  0 ≤ cell_i c ≤ 255 ∧ 0 ≤ cell_j c ≤ 255.
Proof.
  unfold simplex_cell.
  destruct (JS.gtb _ _); simpl; split; apply land_255_range.
Qed.

Lemma gradient_index_in_bounds T i di j dj :
  tables_wf T →
  0 ≤ i ≤ 255 → 0 ≤ j ≤ 255 → 0 ≤ di ≤ 1 → 0 ≤ dj ≤ 1 →
  ∃ v g,
    Uint8Array.get (perm T) (j + dj) = Some v ∧
    corner_index T i di j dj = Some (i + di + v) ∧
    0 ≤ i + di + v ≤ 511 ∧
    gradient_index T i di j dj = Some g ∧ 0 ≤ g < 256.
Proof.
  intros [Hperm Hmod] Hi Hj Hdi Hdj.
  destruct (Uint8Array_get_Some _ _ (j + dj) Hperm) as (v & Hv & Hvr);
    [unfold tableSize; lia|].
  destruct (Uint8Array_get_Some _ _ (i + di + v) Hmod) as (g & Hg & Hgr);
    [unfold tableSize; lia|].
  exists v, g. unfold gradient_index, corner_index.
  rewrite Hv. simpl. rewrite Hg. repeat split; (done || lia).
Qed.

(** C10: for every input pair, NaN and the infinities included, once
    [i] and [j] are masked with [& 255] every index at which [noise]
    reads [perm] and [permMod12] lies in [0, 511], so each of the six
    reads finds an entry. *)
Theorem noise_reads_in_bounds (T : tables) (xin yin : JS.number) :
  tables_wf T →
  let c := simplex_cell xin yin in
  (0 ≤ cell_i c ≤ 255 ∧ 0 ≤ cell_j c ≤ 255) ∧
  ∀ di dj, (di, dj) ∈ [(0, 0); (cell_i1 c, cell_j1 c); (1, 1)] →
    0 ≤ cell_j c + dj ≤ 511 ∧
    ∃ v g,
      Uint8Array.get (perm T) (cell_j c + dj) = Some v ∧
      corner_index T (cell_i c) di (cell_j c) dj = Some (cell_i c + di + v) ∧
      0 ≤ cell_i c + di + v ≤ 511 ∧
      gradient_index T (cell_i c) di (cell_j c) dj = Some g.
Proof.
  intros Hwf c.
  pose proof (simplex_cell_masked xin yin) as [Hi Hj].
  pose proof (simplex_cell_middle xin yin) as Hmid.
  fold c in Hi, Hj, Hmid. split; [done|].
  intros di dj Hin.
  assert (0 ≤ di ≤ 1 ∧ 0 ≤ dj ≤ 1) as [Hdi Hdj].
  { rewrite !elem_of_cons, elem_of_nil in Hin.
    destruct Hin as [Heq|[Heq|[Heq|[]]]], Hmid as [Hm|Hm];
      rewrite ?Hm in Heq; injection Heq as -> ->; lia. }
  split; [lia|].
  destruct (gradient_index_in_bounds T (cell_i c) di (cell_j c) dj)
    as (v & g & Hv & Hc & Hr & Hg & _); try done.
  by exists v, g.
Qed.

Lemma noise_reads_in_bounds_witness :
  tables_wf initial_tables ∧
  let c := simplex_cell JS.nan (S754_infinity true) in
  (0 ≤ cell_i c ≤ 255 ∧ 0 ≤ cell_j c ≤ 255) ∧
  ∀ di dj, (di, dj) ∈ [(0, 0); (cell_i1 c, cell_j1 c); (1, 1)] →
    0 ≤ cell_j c + dj ≤ 511 ∧
    ∃ v g,
      Uint8Array.get (perm initial_tables) (cell_j c + dj) = Some v ∧
      corner_index initial_tables (cell_i c) di (cell_j c) dj
        = Some (cell_i c + di + v) ∧
      0 ≤ cell_i c + di + v ≤ 511 ∧
      gradient_index initial_tables (cell_i c) di (cell_j c) dj = Some g.
Proof.
  assert (tables_wf initial_tables) as Hwf
    by (apply (bool_decide_unpack _); vm_compute; exact I).
  split; [exact Hwf|].
  exact (noise_reads_in_bounds initial_tables JS.nan (S754_infinity true) Hwf).
Defined.

(** ** The last loop of seed *)

Lemma perm_of_length p : length (perm_of p) = 512%nat.
Proof. unfold perm_of. by rewrite length_fmap, length_seqZ. Qed.

Lemma perm_of_lookup p (n : nat) :
  (n < 512)%nat →
  perm_of p !! n
  = Some (Uint8Array.ToUint8 (Uint8Array.get p (Z.land (Z.of_nat n) 255))).
Proof.
  intros Hn. unfold perm_of.
  rewrite list_lookup_fmap, lookup_seqZ_lt by lia. done.
Qed.

Lemma rem_12_byte w : 0 ≤ w → Uint8Array.ToUint8 (Some (Z.rem w 12)) = w mod 12.
Proof.
  intros Hw. simpl. rewrite Z.rem_mod_nonneg by lia.
  pose proof (Z.mod_pos_bound w 12). apply Z.mod_small. lia.
Qed.

(** Whatever the tables held before, the last loop overwrites all 512
    entries of both. *)
Lemma seed_fill_tables_of p T :
  length (perm T) = 512%nat → length (permMod12 T) = 512%nat →
  JS.for_upto tableSize (seed_fill_step p) T = tables_of p.
Proof.
  intros Hlp Hlm.
  pose (P := λ (i : Z) (T' : tables),
    length (perm T') = 512%nat ∧ length (permMod12 T') = 512%nat ∧
    ∀ n : nat, Z.of_nat n < i →
      perm T' !! n = perm_of p !! n ∧
      permMod12 T' !! n = ((λ v, v mod 12) <$> perm_of p) !! n).
  assert (P tableSize (JS.for_upto tableSize (seed_fill_step p) T)) as HP.
  { apply for_upto_ind; [done| |].
    - repeat split; try done; lia.
    - intros i T' Hi (Hl1 & Hl2 & Hdone). unfold tableSize in Hi.
      unfold seed_fill_step, Uint8Array.set.
      destruct (Z.ltb_spec i 0) as [?|_]; [lia|].
      rewrite band_255.
      set (w := Uint8Array.ToUint8 (Uint8Array.get p (Z.land i 255))).
      assert (Uint8Array.get (<[Z.to_nat i:=w]> (perm T')) i = Some w) as ->.
      { unfold Uint8Array.get. destruct (Z.ltb_spec i 0) as [?|_]; [lia|].
        apply list_lookup_insert_eq. lia. }
      simpl fmap. rewrite rem_12_byte by apply ToUint8_range.
      unfold P. cbn [perm permMod12].
      split; [by rewrite length_insert|]. split; [by rewrite length_insert|].
      intros n Hn.
      destruct (decide (n = Z.to_nat i)) as [->|Hne].
      + rewrite !list_lookup_insert_eq by lia.
        rewrite list_lookup_fmap, perm_of_lookup by lia.
        rewrite Z2Nat.id by lia. done.
      + rewrite !list_lookup_insert_ne by done. apply Hdone. lia. }
  destruct HP as (Hl1 & Hl2 & Hall).
  destruct (JS.for_upto tableSize (seed_fill_step p) T) as [pm pm12].
  simpl in *. unfold tables_of. f_equal; apply list_eq; intros n.
  - destruct (decide (n < 512)%nat) as [Hn|Hn].
    + apply Hall. unfold tableSize. lia.
    + rewrite !lookup_ge_None_2; [done| |]; rewrite ?perm_of_length; lia.
  - destruct (decide (n < 512)%nat) as [Hn|Hn].
    + apply Hall. unfold tableSize. lia.
    + rewrite !lookup_ge_None_2; [done| |];
        rewrite ?length_fmap, ?perm_of_length; lia.
Qed.

Lemma seed_tables_of k T :
  tables_wf T → seed k T = tables_of (seed_working_array k).
Proof.
  intros [[Hl1 _] [Hl2 _]]. unfold seed.
  apply seed_fill_tables_of; done.
Qed.

Lemma tables_of_get_perm p n :
  0 ≤ n ≤ 511 →
  Uint8Array.get (perm (tables_of p)) n
  = Some (Uint8Array.ToUint8 (Uint8Array.get p (Z.land n 255))).
Proof.
  intros Hn. unfold Uint8Array.get at 1.
  destruct (Z.ltb_spec n 0) as [?|_]; [lia|].
  unfold tables_of. cbn [perm].
  rewrite perm_of_lookup by lia. by rewrite Z2Nat.id by lia.
Qed.

Lemma tables_of_get_permMod12 p n :
  0 ≤ n ≤ 511 →
  Uint8Array.get (permMod12 (tables_of p)) n
  = Some (Uint8Array.ToUint8 (Uint8Array.get p (Z.land n 255)) mod 12).
Proof.
  intros Hn. unfold Uint8Array.get at 1.
  destruct (Z.ltb_spec n 0) as [?|_]; [lia|].
  unfold tables_of. cbn [permMod12].
  rewrite list_lookup_fmap, perm_of_lookup by lia.
  by rewrite Z2Nat.id by lia.
Qed.

(** C4: after [seed k], [permMod12[n]] is [perm[n]] modulo 12 for every
    [n] in [0, 511], and [perm[n]] equals [perm[n + 256]] for every [n]
    in [0, 255]. *)
Theorem seed_tables_invariant (k : Z) (T : tables) :
  tables_wf T →
  let T' := seed k T in
  (∀ n, 0 ≤ n ≤ 511 →
     ∃ v, Uint8Array.get (perm T') n = Some v ∧
          Uint8Array.get (permMod12 T') n = Some (v mod 12)) ∧
  (∀ n, 0 ≤ n ≤ 255 →
     ∃ v, Uint8Array.get (perm T') n = Some v ∧
          Uint8Array.get (perm T') (n + 256) = Some v).
Proof.
  intros Hwf T'. unfold T'. rewrite (seed_tables_of k T Hwf). split.
  - intros n Hn. eexists. split.
    + by apply tables_of_get_perm.
    + by apply tables_of_get_permMod12.
  - intros n Hn. eexists. split.
    + apply tables_of_get_perm. lia.
    + rewrite tables_of_get_perm by lia.
      rewrite !land_255_mod.
      replace (n + 256) with (n + 1 * 256) by lia.
      by rewrite Z.mod_add by lia.
Qed.

Lemma seed_tables_invariant_witness :
  tables_wf initial_tables ∧
  let T' := seed 1337 initial_tables in
  (∀ n, 0 ≤ n ≤ 511 →
     ∃ v, Uint8Array.get (perm T') n = Some v ∧
          Uint8Array.get (permMod12 T') n = Some (v mod 12)) ∧
  (∀ n, 0 ≤ n ≤ 255 →
     ∃ v, Uint8Array.get (perm T') n = Some v ∧
          Uint8Array.get (perm T') (n + 256) = Some v).
Proof.
  assert (tables_wf initial_tables) as Hwf
    by (apply (bool_decide_unpack _); vm_compute; exact I).
  split; [exact Hwf|].
  exact (seed_tables_invariant 1337 initial_tables Hwf).
Defined.

Lemma tables_of_wf p : tables_wf (tables_of p).
Proof.
  unfold tables_wf, is_Uint8Array, tables_of. cbn [perm permMod12].
  split; split.
  - apply perm_of_length.
  - apply Forall_fmap, Forall_forall. intros x _. apply ToUint8_range.
  - by rewrite length_fmap, perm_of_length.
  - apply Forall_fmap, Forall_fmap, Forall_forall. intros x _. simpl.
    pose proof (Z.mod_pos_bound (Uint8Array.ToUint8
      (Uint8Array.get p (Z.land x 255))) 12). lia.
Qed.

Lemma seed_wf k T : tables_wf T → tables_wf (seed k T).
Proof. intros H. rewrite (seed_tables_of k T H). apply tables_of_wf. Qed.

(** C6: seeding is deterministic in the seed value.  The tables that
    [seed k] leaves are the same whatever the tables held before the
    call, so two calls with the same [k] produce identical [perm] and
    [permMod12], also when other seeds were used in between. *)
Theorem seed_deterministic (k : Z) (T1 T2 : tables) :
  tables_wf T1 → tables_wf T2 →
  seed k T1 = seed k T2 ∧ seed k (seed k T1) = seed k T1.
Proof.
  intros H1 H2.
  assert (tables_wf (seed k T1)) as H1'
    by (rewrite (seed_tables_of k T1 H1); apply tables_of_wf).
  split.
  - by rewrite (seed_tables_of k T1 H1), (seed_tables_of k T2 H2).
  - by rewrite (seed_tables_of k _ H1'), (seed_tables_of k T1 H1).
Qed.

Lemma seed_deterministic_witness :
  (tables_wf initial_tables ∧ tables_wf (seed 42 initial_tables)) ∧
  seed 1337 initial_tables = seed 1337 (seed 42 initial_tables) ∧
  seed 1337 (seed 1337 initial_tables) = seed 1337 initial_tables.
Proof.
  assert (tables_wf initial_tables) as H1
    by (apply (bool_decide_unpack _); vm_compute; exact I).
  assert (tables_wf (seed 42 initial_tables)) as H2
    by (apply (bool_decide_unpack _); vm_compute; exact I).
  split; [exact (conj H1 H2)|].
  exact (seed_deterministic 1337 initial_tables (seed 42 initial_tables) H1 H2).
Defined.

(** ** Exact arithmetic on doubles *)

Lemma digits2_pos_log2 p : Z.pos (digits2_pos p) = Z.log2 (Z.pos p) + 1.
Proof.
  assert (∀ q, digits2_pos q = Pos.size q) as Hsize
    by (induction q as [q IH|q IH|]; simpl; by rewrite ?IH).
  destruct p as [p|p|]; simpl; rewrite ?Hsize; lia.
Qed.

Lemma Zpos_iter_xO q k : Z.pos (Pos.iter xO q k) = Z.pos q * 2 ^ Z.pos k.
Proof.
  induction k as [|k IH] using Pos.peano_ind.
  - simpl. lia.
  - rewrite Pos.iter_succ, Pos2Z.inj_xO, IH, Pos2Z.inj_succ, Z.pow_succ_r by lia.
    lia.
Qed.

(** Shifting out [k] zero bits loses nothing. *)
Lemma iter_shr_1_exact k q :
  SpecFloat.iter_pos shr_1 k (Build_shr_record (Z.pos (Pos.iter xO q k)) false false)
  = Build_shr_record (Z.pos q) false false.
Proof.
  revert q. induction k as [k IH|k IH|]; intros q; simpl.
  - by rewrite !IH.
  - by rewrite !IH.
  - done.
Qed.

(** Rounding a mantissa that is a normal 53-bit mantissa [q] followed by
    [k] zero bits returns [q]: no bit is lost. *)
Lemma binary_round_aux_exact s q k e :
  0 ≤ k →
  Z.pos (digits2_pos q) = 53 →
  -1074 ≤ e + k ≤ 971 →
  binary_round_aux JS.prec JS.emax s (Z.pos q * 2 ^ k) e loc_Exact
  = S754_finite s q (e + k).
Proof.
  intros Hk Hq He.
  assert (∀ x, -1074 ≤ x → fexp JS.prec JS.emax (53 + x) - x = 0) as Hfexp
    by (intros x Hx; unfold fexp, emin, JS.prec, JS.emax; lia).
  assert (shr_fexp JS.prec JS.emax (Z.pos q) (e + k) loc_Exact
          = (Build_shr_record (Z.pos q) false false, e + k)) as Hsnd.
  { unfold shr_fexp. cbn [Zdigits2]. rewrite Hq, Hfexp by lia. done. }
  destruct k as [|k|k]; [| |lia].
  - rewrite Z.pow_0_r, Z.mul_1_r, Z.add_0_r in *.
    unfold binary_round_aux. rewrite Hsnd. cbn.
    rewrite Hsnd. cbn.
    destruct (Z.leb_spec e (JS.emax - JS.prec)) as [_|H]; [done|].
    unfold JS.emax, JS.prec in H. lia.
  - rewrite <- Zpos_iter_xO.
    unfold binary_round_aux.
    assert (shr_fexp JS.prec JS.emax (Z.pos (Pos.iter xO q k)) e loc_Exact
            = (Build_shr_record (Z.pos q) false false, e + Z.pos k)) as ->.
    { assert (Z.pos (digits2_pos (Pos.iter xO q k)) = 53 + Z.pos k) as Hd.
      { rewrite digits2_pos_log2, Zpos_iter_xO, Z.log2_mul_pow2 by lia.
        rewrite digits2_pos_log2 in Hq. lia. }
      unfold shr_fexp. cbn [Zdigits2]. rewrite Hd.
      replace (fexp JS.prec JS.emax (53 + Z.pos k + e) - e) with (Z.pos k)
        by (unfold fexp, emin, JS.prec, JS.emax; lia).
      cbn [shr_record_of_loc shr]. by rewrite iter_shr_1_exact. }
    cbn. rewrite Hsnd. cbn.
    destruct (Z.leb_spec (e + Z.pos k) (JS.emax - JS.prec)) as [_|H]; [done|].
    unfold JS.emax, JS.prec in H. lia.
Qed.

Lemma exact_mantissa u :
  0 < u < 2 ^ 53 →
  0 ≤ Z.log2 u ≤ 52 ∧
  Z.pos (Z.to_pos (u * 2 ^ (52 - Z.log2 u))) = u * 2 ^ (52 - Z.log2 u) ∧
  Z.pos (digits2_pos (Z.to_pos (u * 2 ^ (52 - Z.log2 u)))) = 53.
Proof.
  intros Hu.
  assert (0 ≤ Z.log2 u ≤ 52) as Hl.
  { split; [apply Z.log2_nonneg|].
    assert (Z.log2 u < 53) by (apply Z.log2_lt_pow2; lia). lia. }
  assert (0 < u * 2 ^ (52 - Z.log2 u)) as Hpos
    by (apply Z.mul_pos_pos; [lia|apply Z.pow_pos_nonneg; lia]).
  split; [done|]. split; [by rewrite Z2Pos.id|].
  rewrite digits2_pos_log2, Z2Pos.id, Z.log2_mul_pow2 by lia. lia.
Qed.

(** Natural numbers below 2^53, scaled by a power of two that keeps
    them normal, are doubles. *)
Lemma dyadic_exact u e :
  0 ≤ u < 2 ^ 53 → -1000 ≤ e ≤ 900 →
  JS.dyadic u e = exact_double u e.
Proof.
  intros Hu He. destruct u as [|p|p]; [done| |lia].
  destruct (exact_mantissa (Z.pos p)) as (Hl & Hm & Hd); [lia|].
  unfold JS.dyadic, exact_double, binary_normalize, binary_round, shl_align.
  set (l := Z.log2 (Z.pos p)) in *.
  replace (fexp JS.prec JS.emax (Z.pos (digits2_pos p) + e) - e) with (l - 52)
    by (rewrite digits2_pos_log2; unfold fexp, emin, JS.prec, JS.emax; lia).
  destruct (l - 52) as [|d|d] eqn:Hld; [| lia |].
  - replace (52 - l) with 0 in * by lia.
    rewrite Z.pow_0_r, Z.mul_1_r in *. cbn [Z.to_pos] in *.
    rewrite <- (Z.mul_1_r (Z.pos p)) at 1. rewrite <- (Z.pow_0_r 2).
    rewrite binary_round_aux_exact by lia. f_equal; lia.
  - replace (52 - l) with (Z.pos d) in * by lia.
    rewrite <- Zpos_iter_xO in *. cbn [Z.to_pos] in *.
    rewrite <- (Z.mul_1_r (Z.pos (Pos.iter xO p d))), <- (Z.pow_0_r 2).
    rewrite binary_round_aux_exact; [|lia|done|].
    + f_equal. rewrite digits2_pos_log2. unfold fexp, emin, JS.prec, JS.emax. lia.
    + rewrite digits2_pos_log2. unfold fexp, emin, JS.prec, JS.emax. lia.
Qed.

Lemma of_Z_exact u : 0 ≤ u < 2 ^ 53 → JS.of_Z u = exact_double u 0.
Proof. intros Hu. apply dyadic_exact; [done|lia]. Qed.

(** The product of two such doubles is computed without rounding as long
    as it fits in 53 bits. *)
Lemma mul_exact u e n e' :
  0 ≤ u → 0 ≤ n → u * n < 2 ^ 53 → -1000 ≤ e + e' ≤ 900 →
  JS.mul (exact_double u e) (exact_double n e') = exact_double (u * n) (e + e').
Proof.
  intros Hu Hn Hun He.
  destruct u as [|p|p]; [by destruct n| |lia].
  destruct n as [|q|q]; [done| |lia].
  assert (Z.pos p < 2 ^ 53 ∧ Z.pos q < 2 ^ 53) as [Hp Hq] by nia.
  destruct (exact_mantissa (Z.pos p)) as (Hlp & Hmp & Hdp); [lia|].
  destruct (exact_mantissa (Z.pos q)) as (Hlq & Hmq & Hdq); [lia|].
  destruct (exact_mantissa (Z.pos p * Z.pos q)) as (Hl & Hm & Hd); [lia|].
  pose proof (Z.log2_mul_below (Z.pos p) (Z.pos q)) as Hbelow.
  change (Z.pos p * Z.pos q) with (Z.pos (p * q)) in *.
  unfold exact_double, JS.mul, SFmul. cbn [xorb].
  set (lp := Z.log2 (Z.pos p)) in *. set (lq := Z.log2 (Z.pos q)) in *.
  set (l := Z.log2 (Z.pos (p * q))) in *.
  set (mp := Z.to_pos (Z.pos p * 2 ^ (52 - lp))) in *.
  set (mq := Z.to_pos (Z.pos q * 2 ^ (52 - lq))) in *.
  set (m := Z.to_pos (Z.pos (p * q) * 2 ^ (52 - l))) in *.
  replace (Z.pos (mp * mq)) with (Z.pos m * 2 ^ (52 + l - lp - lq)).
  - rewrite binary_round_aux_exact by lia. f_equal. lia.
  - rewrite Pos2Z.inj_mul, Hm, Hmp, Hmq.
    replace (Z.pos (p * q)) with (Z.pos p * Z.pos q) by done.
    rewrite <- Z.mul_assoc, <- Z.pow_add_r by lia.
    replace (52 - l + (52 + l - lp - lq)) with ((52 - lp) + (52 - lq)) by lia.
    rewrite Z.pow_add_r by lia. lia.
Qed.

(** Division by 2^32 only lowers the exponent. *)
Lemma div_two32_exact u e :
  0 ≤ u < 2 ^ 53 → -900 ≤ e ≤ 900 →
  JS.div (exact_double u e) (JS.of_Z 4294967296) = exact_double u (e - 32).
Proof.
  intros Hu He.
  change (JS.of_Z 4294967296) with (S754_finite false (2 ^ 52) (-20)).
  destruct u as [|p|p]; [done| |lia].
  destruct (exact_mantissa (Z.pos p)) as (Hl & Hm & Hd); [lia|].
  unfold exact_double, JS.div, SFdiv, SFdiv_core_binary. cbn [xorb Zdigits2].
  set (l := Z.log2 (Z.pos p)) in *.
  set (m := Z.to_pos (Z.pos p * 2 ^ (52 - l))) in *.
  rewrite Hd. change (Z.pos (digits2_pos (2 ^ 52))) with 53.
  replace (Z.min (fexp JS.prec JS.emax (53 + (e - (52 - l)) - (53 + -20)))
             (e - (52 - l) - -20))
    with (e - (52 - l) - 33)
    by (unfold fexp, emin, JS.prec, JS.emax; lia).
  replace (e - (52 - l) - -20 - (e - (52 - l) - 33)) with 53 by lia.
  cbv iota.
  assert (Z.div_eucl (Z.shiftl (Z.pos m) 53) (Z.pos (2 ^ 52))
          = (Z.pos m * 2 ^ 1, 0)) as ->.
  { pose proof (Z_div_mod (Z.shiftl (Z.pos m) 53) (Z.pos (2 ^ 52))) as Hdm.
    destruct (Z.div_eucl _ _) as [q r].
    rewrite Z.shiftl_mul_pow2 in Hdm by lia.
    destruct Hdm as [Heq Hr]; [done|].
    change (Z.pos (2 ^ 52)) with (2 ^ 52) in *.
    replace (2 ^ 53) with (2 * 2 ^ 52) in Heq by done.
    assert (q = Z.pos m * 2) as -> by nia.
    f_equal; lia. }
  change (new_location (Z.pos (2 ^ 52)) 0) with loc_Exact.
  rewrite binary_round_aux_exact by lia. f_equal. lia.
Qed.

(** The integer part of such a double. *)
Lemma trunc_exact u e : 0 ≤ u < 2 ^ 53 → JS.trunc (exact_double u e) = Z.shiftl u e.
Proof.
  intros Hu. destruct u as [|p|p]; [by rewrite Z.shiftl_0_l| |lia].
  destruct (exact_mantissa (Z.pos p)) as (Hl & Hm & Hd); [lia|].
  unfold exact_double, JS.trunc. cbn [cond_Zopp].
  rewrite Hm, <- Z.shiftl_mul_pow2, Z.shiftl_shiftl by lia.
  f_equal. lia.
Qed.

(** A 32-bit value divided by 2^32 lies in [0, 1). *)
Lemma unit_interval_exact t :
  0 ≤ t < 2 ^ 32 →
  JS.leb JS.pzero (exact_double t (-32)) = true ∧
  JS.ltb (exact_double t (-32)) (JS.of_Z 1) = true.
Proof.
  intros Ht. destruct t as [|p|p]; [done| |lia].
  assert (Z.log2 (Z.pos p) < 32) as Hl by (apply Z.log2_lt_pow2; lia).
  pose proof (Z.log2_nonneg (Z.pos p)).
  unfold exact_double. split; [done|].
  change (JS.of_Z 1) with (S754_finite false (2 ^ 52) (-52)).
  unfold JS.ltb, SFltb, SFcompare.
  destruct (Z.compare_spec (-32 - (52 - Z.log2 (Z.pos p))) (-52)); (done || lia).
Qed.

(** ** SplitMix32 *)

Lemma lxor_mod_pow2 a b n :
  0 ≤ n → Z.lxor a b mod 2 ^ n = Z.lxor (a mod 2 ^ n) (b mod 2 ^ n).
Proof.
  intros Hn. apply Z.bits_inj'. intros m Hm.
  rewrite Z.lxor_spec.
  destruct (Z.lt_ge_cases m n) as [Hlt|Hge].
  - by rewrite !Z.mod_pow2_bits_low, Z.lxor_spec by done.
  - by rewrite !Z.mod_pow2_bits_high by lia.
Qed.

Lemma lxor_uint32 a b :
  0 ≤ a < 2 ^ 32 → 0 ≤ b < 2 ^ 32 → 0 ≤ Z.lxor a b < 2 ^ 32.
Proof.
  intros Ha Hb.
  rewrite <- (Z.mod_small a (2 ^ 32)), <- (Z.mod_small b (2 ^ 32)) by done.
  rewrite <- lxor_mod_pow2 by lia. apply Z.mod_pos_bound. lia.
Qed.

Lemma shiftr_uint32 a n : 0 ≤ n → 0 ≤ a < 2 ^ 32 → 0 ≤ Z.shiftr a n < 2 ^ 32.
Proof.
  intros Hn Ha. rewrite Z.shiftr_div_pow2 by done.
  assert (0 < 2 ^ n) by (apply Z.pow_pos_nonneg; lia).
  split; [apply Z.div_pos; lia|].
  apply Z.le_lt_trans with a; [|lia].
  apply Z.div_le_upper_bound; [lia|]. nia.
Qed.

Lemma bor_0 a : JS.bor a 0 = JS.wrap_int32 a.
Proof.
  unfold JS.bor. change (JS.wrap_int32 0) with 0.
  rewrite Z.lor_0_r. apply wrap_int32_id, wrap_int32_range.
Qed.

Lemma wrap_int32_mod_l z : JS.wrap_int32 (z mod 2 ^ 32) = JS.wrap_int32 z.
Proof. unfold JS.wrap_int32. by rewrite Z.add_mod_idemp_l by lia. Qed.

Lemma bxor_mod a b :
  JS.bxor a b mod 2 ^ 32 = Z.lxor (a mod 2 ^ 32) (b mod 2 ^ 32).
Proof.
  unfold JS.bxor.
  by rewrite wrap_int32_mod, lxor_mod_pow2, !wrap_int32_mod by lia.
Qed.

Lemma imul_mod a b :
  JS.imul a b mod 2 ^ 32 = (a mod 2 ^ 32 * (b mod 2 ^ 32)) mod 2 ^ 32.
Proof.
  unfold JS.imul.
  by rewrite wrap_int32_mod, Z.mul_mod, !wrap_int32_mod by lia.
Qed.

(** One mixing round, [t ^ t >>> n], read on unsigned values. *)
Lemma xorshift_mod t n :
  0 ≤ n ≤ 31 →
  JS.bxor t (JS.ushr t n) mod 2 ^ 32
  = Z.lxor (t mod 2 ^ 32) (Z.shiftr (t mod 2 ^ 32) n).
Proof.
  intros Hn. rewrite bxor_mod. f_equal.
  unfold JS.ushr, JS.wrap_uint32.
  replace (Z.land n 31) with n.
  - apply Z.mod_small, shiftr_uint32; [lia|]. apply Z.mod_pos_bound. lia.
  - change 31 with (Z.ones 5). rewrite Z.land_ones, Z.mod_small; lia.
Qed.

Lemma splitmix32_spec_range a :
  let '(sa, t) := splitmix32_spec a in 0 ≤ sa < 2 ^ 32 ∧ 0 ≤ t < 2 ^ 32.
Proof.
  unfold splitmix32_spec. split; [apply Z.mod_pos_bound; lia|].
  apply lxor_uint32; [|apply shiftr_uint32; [lia|]]; apply Z.mod_pos_bound; lia.
Qed.

(** The closure computes, on signed 32-bit values, what the
    specification computes on unsigned ones. *)
Lemma splitmix32_integers a :
  let '(sa, t) := splitmix32_spec (a mod 2 ^ 32) in
  splitmix32 a
  = (JS.wrap_int32 sa, (JS.of_Z t / JS.of_Z 4294967296)%js).
Proof.
  unfold splitmix32, splitmix32_spec. rewrite !bor_0.
  set (a1 := JS.wrap_int32 (JS.wrap_int32 a + 2654435769)).
  set (sa := (a mod 2 ^ 32 + 2654435769) mod 2 ^ 32).
  assert (a1 mod 2 ^ 32 = sa) as Ha1.
  { unfold a1, sa. rewrite wrap_int32_mod.
    rewrite Z.add_mod, wrap_int32_mod, <- Z.add_mod by lia.
    by rewrite Z.add_mod_idemp_l by lia. }
  f_equal.
  - rewrite <- Ha1, wrap_int32_mod_l.
    symmetry. apply wrap_int32_id, wrap_int32_range.
  - do 2 f_equal.
    unfold JS.ushr at 1. change (Z.land 0 31) with 0.
    rewrite Z.shiftr_0_r. unfold JS.wrap_uint32.
    rewrite xorshift_mod, imul_mod, xorshift_mod, imul_mod, xorshift_mod by lia.
    rewrite Ha1. done.
Qed.

(** What one call returns, in the form the shuffle uses it: the state
    wrapped to 32 bits and the double that is exactly [t * 2^-32]. *)
Lemma splitmix32_draw a :
  let '(sa, t) := splitmix32_spec (a mod 2 ^ 32) in
  splitmix32 a = (JS.wrap_int32 sa, exact_double t (-32)) ∧ 0 ≤ t < 2 ^ 32.
Proof.
  pose proof (splitmix32_integers a) as Hint.
  pose proof (splitmix32_spec_range (a mod 2 ^ 32)) as Hrange.
  destruct (splitmix32_spec (a mod 2 ^ 32)) as [sa t].
  destruct Hrange as [_ Ht]. split; [|done].
  rewrite Hint, of_Z_exact by lia. f_equal.
  apply (div_two32_exact t 0); lia.
Qed.

(** C2: each call of the generator advances the 32-bit state by
    0x9e3779b9 modulo 2^32, mixes it by the three xor-shifts and the two
    multiplications modulo 2^32 of the specification, and returns the
    unsigned result [t] divided by 2^32: the double whose value is
    exactly [t * 2^-32], which lies in [0, 1). *)
Theorem splitmix32_matches_spec (a : Z) :
  let '(a', out) := splitmix32 a in
  let '(sa, t) := splitmix32_spec (a mod 2 ^ 32) in
  a' mod 2 ^ 32 = sa ∧
  a' = JS.wrap_int32 (a + 0x9e3779b9) ∧
  0 ≤ t < 2 ^ 32 ∧
  out = exact_double t (-32) ∧
  JS.leb JS.pzero out = true ∧ JS.ltb out (JS.of_Z 1) = true.
Proof.
  pose proof (splitmix32_integers a) as Hint.
  pose proof (splitmix32_spec_range (a mod 2 ^ 32)) as Hrange.
  destruct (splitmix32_spec (a mod 2 ^ 32)) as [sa t] eqn:Hspec.
  rewrite Hint. destruct Hrange as [Hsa Ht].
  assert (JS.of_Z t / JS.of_Z 4294967296 = exact_double t (-32))%js as ->.
  { rewrite of_Z_exact by lia. apply (div_two32_exact t 0); lia. }
  split; [by rewrite wrap_int32_mod, Z.mod_small|].
  split.
  { unfold splitmix32_spec in Hspec. injection Hspec as <- _.
    rewrite wrap_int32_mod_l. unfold JS.wrap_int32. f_equal.
    rewrite <- !Z.add_assoc. by rewrite Z.add_mod_idemp_l by lia. }
  split; [done|]. split; [done|].
  by apply unit_interval_exact.
Qed.

(** ** The shuffle of seed *)

(** The draw [~~(random() * (256 - i))] is computed without rounding: it
    is the integer quotient of [t * (256 - i)] by 2^32, below [256 - i]. *)
Lemma draw_exact t i :
  0 ≤ t < 2 ^ 32 → 0 ≤ i ≤ 255 →
  JS.ToInt32 (exact_double t (-32) * JS.of_Z (256 - i))%js
  = t * (256 - i) / 2 ^ 32 ∧
  0 ≤ t * (256 - i) / 2 ^ 32 < 256 - i.
Proof.
  intros Ht Hi.
  assert (0 ≤ t * (256 - i) / 2 ^ 32 < 256 - i) as Hr.
  { split; [apply Z.div_pos; nia|].
    apply Z.div_lt_upper_bound; nia. }
  split; [|done].
  rewrite of_Z_exact by lia.
  rewrite mul_exact by nia.
  unfold JS.ToInt32. rewrite trunc_exact by nia.
  rewrite Z.shiftl_div_pow2 by lia.
  apply wrap_int32_id. change (- (-32 + 0)) with 32. lia.
Qed.

Lemma swap_length (p : list Z) (i r : nat) : length (swap p i r) = length p.
Proof.
  unfold swap. destruct (p !! i), (p !! r); try done.
  by rewrite !length_insert.
Qed.

Lemma swap_lookup (p : list Z) (i r n : nat) :
  (i < length p)%nat → (r < length p)%nat →
  swap p i r !! n
  = p !! (if decide (n = i) then r else if decide (n = r) then i else n).
Proof.
  intros Hi Hr. unfold swap.
  destruct (lookup_lt_is_Some_2 p i Hi) as [x Hx].
  destruct (lookup_lt_is_Some_2 p r Hr) as [y Hy].
  rewrite Hx, Hy.
  destruct (decide (n = i)) as [->|Hni].
  - by rewrite list_lookup_insert_eq by (by rewrite length_insert).
  - rewrite list_lookup_insert_ne by done.
    destruct (decide (n = r)) as [->|Hnr].
    + by rewrite list_lookup_insert_eq.
    + by rewrite list_lookup_insert_ne.
Qed.

Lemma swap_Permutation (p : list Z) (i r : nat) : swap p i r ≡ₚ p.
Proof.
  destruct (decide (i < length p ∧ r < length p)%nat) as [[Hi Hr]|Hout].
  - apply Permutation_inj. split; [apply swap_length|].
    exists (λ n, if decide (n = i) then r else if decide (n = r) then i else n).
    split; [|intros n; by apply swap_lookup].
    intros n m. repeat case_decide; congruence.
  - unfold swap.
    destruct (p !! i) eqn:Hx; [|done]. destruct (p !! r) eqn:Hy; [|done].
    apply lookup_lt_Some in Hx, Hy. lia.
Qed.

(** The destructuring assignment of the source on the 512-entry working
    array is the exchange of two entries of its first half. *)
Lemma Uint8Array_swap q zeros i r :
  Forall (λ v, 0 ≤ v < 256) q →
  0 ≤ i < Z.of_nat (length q) → 0 ≤ r < Z.of_nat (length q) →
  let p := q ++ zeros in
  Uint8Array.set
    (Uint8Array.set p r (Uint8Array.get p i)) i (Uint8Array.get p r)
  = swap q (Z.to_nat i) (Z.to_nat r) ++ zeros.
Proof.
  intros Hq Hi Hr p. unfold Uint8Array.set, Uint8Array.get.
  destruct (Z.ltb_spec i 0) as [?|_]; [lia|].
  destruct (Z.ltb_spec r 0) as [?|_]; [lia|].
  unfold p. rewrite !lookup_app_l by lia.
  destruct (lookup_lt_is_Some_2 q (Z.to_nat i)) as [x Hx]; [lia|].
  destruct (lookup_lt_is_Some_2 q (Z.to_nat r)) as [y Hy]; [lia|].
  unfold swap. rewrite Hx, Hy. simpl.
  pose proof (Forall_lookup_1 _ _ _ _ Hq Hx) as Hxr.
  pose proof (Forall_lookup_1 _ _ _ _ Hq Hy) as Hyr.
  simpl in Hxr, Hyr. rewrite !Z.mod_small by done.
  rewrite insert_app_l by lia.
  rewrite insert_app_l by (rewrite length_insert; lia). done.
Qed.

(** One iteration of the source against one step of the specification. *)
Lemma seed_shuffle_step_spec a q zeros i :
  Forall (λ v, 0 ≤ v < 256) q → length q = 256%nat → 0 ≤ i < 255 →
  let st' := shuffle_spec_step (a mod 2 ^ 32, q) i in
  ∃ a', seed_shuffle_step i (a, q ++ zeros) = (a', snd st' ++ zeros) ∧
        a' mod 2 ^ 32 = fst st'.
Proof.
  intros Hq Hlen Hi. unfold shuffle_spec_step, seed_shuffle_step.
  pose proof (splitmix32_draw a) as Hmix.
  pose proof (splitmix32_spec_range (a mod 2 ^ 32)) as Hsa.
  destruct (splitmix32_spec (a mod 2 ^ 32)) as [sa t].
  destruct Hmix as [-> Ht]. destruct Hsa as [Hsa _].
  destruct (draw_exact t i) as [-> Hr]; [done|lia|].
  exists (JS.wrap_int32 sa).
  split; [|by rewrite wrap_int32_mod, Z.mod_small]. cbn [snd]. f_equal.
  apply Uint8Array_swap; [done|lia|lia].
Qed.

Lemma shuffle_spec_fold_invariant k (n : nat) :
  let st := foldl shuffle_spec_step (k mod 2 ^ 32, seqZ 0 256)
              (seqZ 0 (Z.of_nat n)) in
  snd st ≡ₚ seqZ 0 256.
Proof.
  induction n as [|n IH]; [done|].
  rewrite seqZ_S, foldl_app. cbn [foldl].
  destruct (foldl _ _ _) as [a p]. unfold shuffle_spec_step.
  destruct (splitmix32_spec a) as [a' t]. cbn [snd] in *.
  by rewrite swap_Permutation.
Qed.

Lemma shuffle_spec_Permutation k : shuffle_spec k ≡ₚ seqZ 0 256.
Proof. apply (shuffle_spec_fold_invariant k 255). Qed.

Lemma shuffle_spec_length k : length (shuffle_spec k) = 256%nat.
Proof. by rewrite shuffle_spec_Permutation, length_seqZ. Qed.

Lemma shuffle_spec_bytes k : Forall (λ v, 0 ≤ v < 256) (shuffle_spec k).
Proof.
  rewrite shuffle_spec_Permutation. apply Forall_forall.
  intros v Hv%elem_of_seqZ. lia.
Qed.

Lemma seed_init_identity :
  seed_init (Uint8Array.make tableSize) = seqZ 0 256 ++ replicate 256 0.
Proof. by vm_compute. Qed.

(** The shuffle loop of the source runs in step with the fold of the
    specification. *)
Lemma seed_shuffle_loop k :
  snd (JS.for_upto 255 seed_shuffle_step (k, seqZ 0 256 ++ replicate 256 0))
  = snd (foldl shuffle_spec_step (k mod 2 ^ 32, seqZ 0 256) (seqZ 0 255))
    ++ replicate 256 0.
Proof.
  pose (P := λ (i : Z) (st : Z * list Z),
    let sp := foldl shuffle_spec_step (k mod 2 ^ 32, seqZ 0 256) (seqZ 0 i) in
    fst st mod 2 ^ 32 = fst sp ∧ snd st = snd sp ++ replicate 256 0).
  assert (P 255 (JS.for_upto 255 seed_shuffle_step
                   (k, seqZ 0 256 ++ replicate 256 0))) as [_ HP].
  { apply for_upto_ind; [done|done|].
    intros i [a p] Hi [Ha Hp]. unfold P in *. cbn [fst snd] in *.
    replace i with (Z.of_nat (Z.to_nat i)) in * by lia.
    set (n := Z.to_nat i) in *.
    replace (Z.of_nat n + 1) with (Z.of_nat (S n)) by lia.
    rewrite seqZ_S, foldl_app. cbn [foldl].
    pose proof (shuffle_spec_fold_invariant k n) as Hperm.
    destruct (foldl _ _ (seqZ 0 (Z.of_nat n))) as [sa q].
    cbn [fst snd] in *. subst p sa.
    destruct (seed_shuffle_step_spec a q (replicate 256 0) (Z.of_nat n))
      as (a' & -> & Ha'); [| |lia|done].
    - rewrite Hperm. apply Forall_forall. intros v Hv%elem_of_seqZ. lia.
    - by rewrite Hperm, length_seqZ. }
  done.
Qed.

Lemma splitmix32_fst a : fst (splitmix32 a) = JS.wrap_int32 (a + 0x9e3779b9).
Proof.
  pose proof (splitmix32_draw a) as H.
  unfold splitmix32_spec in H. destruct H as [-> _]. cbn [fst].
  rewrite wrap_int32_mod_l. unfold JS.wrap_int32. f_equal.
  rewrite <- !Z.add_assoc. by rewrite Z.add_mod_idemp_l by lia.
Qed.

Lemma splitmix32_state_mod n a :
  splitmix32_state n a mod 2 ^ 32 = (a + Z.of_nat n * 0x9e3779b9) mod 2 ^ 32.
Proof.
  induction n as [|n IH]; cbn [splitmix32_state].
  - f_equal. lia.
  - rewrite splitmix32_fst, wrap_int32_mod.
    rewrite <- Z.add_mod_idemp_l, IH, Z.add_mod_idemp_l by lia.
    f_equal. lia.
Qed.

Lemma splitmix32_state_succ n a :
  splitmix32_state (S n) a = JS.wrap_int32 (a + Z.of_nat (S n) * 0x9e3779b9).
Proof.
  cbn [splitmix32_state]. rewrite splitmix32_fst.
  rewrite <- wrap_int32_mod_l, <- Z.add_mod_idemp_l, splitmix32_state_mod by lia.
  rewrite Z.add_mod_idemp_l, wrap_int32_mod_l by lia. f_equal. lia.
Qed.

(** Each call moves the state: two consecutive states differ. *)
Lemma splitmix32_state_moves n a :
  splitmix32_state n a ≠ splitmix32_state (S n) a.
Proof.
  cbn [splitmix32_state]. rewrite splitmix32_fst. intros H.
  assert ((splitmix32_state n a + 0x9e3779b9 - splitmix32_state n a) mod 2 ^ 32
          = 0) as Hmod.
  { pose proof (f_equal (λ z, z mod 2 ^ 32) H) as Hm. cbn beta in Hm.
    rewrite wrap_int32_mod in Hm.
    by rewrite Zminus_mod, <- Hm, Z.sub_diag. }
  replace (splitmix32_state n a + 0x9e3779b9 - splitmix32_state n a)
    with 0x9e3779b9 in Hmod by lia.
  discriminate Hmod.
Qed.

(** Every iteration of the shuffle loop calls the generator once,
    whatever it does to the array. *)
Lemma seed_shuffle_state k p (n : nat) :
  fst (JS.for_upto (Z.of_nat n) seed_shuffle_step (k, p)) = splitmix32_state n k.
Proof.
  pose (P := λ (i : Z) (st : Z * list Z),
    fst st = splitmix32_state (Z.to_nat i) k).
  assert (P (Z.of_nat n)
            (JS.for_upto (Z.of_nat n) seed_shuffle_step (k, p))) as HP.
  { apply for_upto_ind; [lia|done|].
    intros i [a q] Hi Ha. unfold P in *. cbn [fst] in Ha.
    replace (Z.to_nat (i + 1)) with (S (Z.to_nat i)) by lia.
    cbn [splitmix32_state]. rewrite <- Ha.
    unfold seed_shuffle_step. by destruct (splitmix32 a). }
  unfold P in HP. by rewrite Nat2Z.id in HP.
Qed.

Lemma seed_working_array_shuffle k :
  seed_working_array k = shuffle_spec k ++ replicate 256 0.
Proof.
  unfold seed_working_array, seed_shuffle, shuffle_spec.
  rewrite seed_init_identity.
  change (tableSize / 2 - 1) with 255.
  exact (seed_shuffle_loop k).
Qed.

(** C3: [seed k] starts from the working array with [p[i] = i] for [i]
    in 0..255 and runs exactly the 255 shuffle steps [i = 0, ..., 254]:
    each draws [r = i + floor (random() * (256 - i))] from the
    SplitMix32 generator seeded with [k] and exchanges [p[i]] and
    [p[r]].  When the loop ends the generator has been called 255 times
    and not 256: its state is [k + 255 * 0x9e3779b9] wrapped to 32 bits,
    which one more call would change.  The tables that [seed k] leaves
    are read off the array so shuffled. *)
Theorem seed_shuffle_matches_spec (k : Z) (T : tables) :
  tables_wf T →
  seed_init (Uint8Array.make tableSize) = seqZ 0 256 ++ replicate 256 0 ∧
  seed_shuffle k (seed_init (Uint8Array.make tableSize))
  = (splitmix32_state 255 k, shuffle_spec k ++ replicate 256 0) ∧
  splitmix32_state 255 k = JS.wrap_int32 (k + 255 * 0x9e3779b9) ∧
  splitmix32_state 255 k ≠ splitmix32_state 256 k ∧
  seed_working_array k = shuffle_spec k ++ replicate 256 0 ∧
  seed k T = tables_of (shuffle_spec k ++ replicate 256 0).
Proof.
  intros Hwf.
  split; [apply seed_init_identity|].
  split.
  { unfold seed_shuffle. rewrite seed_init_identity.
    change (tableSize / 2 - 1) with 255.
    pose proof (seed_shuffle_state k (seqZ 0 256 ++ replicate 256 0) 255)
      as Hstate.
    pose proof (seed_shuffle_loop k) as Harray.
    change (Z.of_nat 255) with 255 in Hstate.
    unfold shuffle_spec.
    destruct (JS.for_upto 255 seed_shuffle_step _) as [a p].
    cbn [fst snd] in Hstate, Harray. congruence. }
  split; [apply (splitmix32_state_succ 254)|].
  split; [apply splitmix32_state_moves|].
  split; [apply seed_working_array_shuffle|].
  by rewrite (seed_tables_of k T Hwf), seed_working_array_shuffle.
Qed.

Lemma seed_shuffle_matches_spec_witness :
  tables_wf initial_tables ∧
  seed_init (Uint8Array.make tableSize) = seqZ 0 256 ++ replicate 256 0 ∧
  seed_shuffle 1337 (seed_init (Uint8Array.make tableSize))
  = (splitmix32_state 255 1337, shuffle_spec 1337 ++ replicate 256 0) ∧
  splitmix32_state 255 1337 = JS.wrap_int32 (1337 + 255 * 0x9e3779b9) ∧
  splitmix32_state 255 1337 ≠ splitmix32_state 256 1337 ∧
  seed_working_array 1337 = shuffle_spec 1337 ++ replicate 256 0 ∧
  seed 1337 initial_tables = tables_of (shuffle_spec 1337 ++ replicate 256 0).
Proof.
  assert (tables_wf initial_tables) as Hwf
    by (apply (bool_decide_unpack _); vm_compute; exact I).
  split; [exact Hwf|].
  exact (seed_shuffle_matches_spec 1337 initial_tables Hwf).
Defined.

(** The first half of [perm] is the shuffled working array. *)
Lemma seed_perm_first_half k T :
  tables_wf T → take 256 (perm (seed k T)) = shuffle_spec k.
Proof.
  intros Hwf. rewrite (seed_tables_of k T Hwf).
  rewrite seed_working_array_shuffle.
  unfold tables_of. cbn [perm]. apply list_eq. intros n.
  pose proof (shuffle_spec_length k) as Hlen.
  destruct (decide (n < 256)%nat) as [Hn|Hn].
  - rewrite lookup_take_lt, perm_of_lookup by lia.
    rewrite land_255_mod, Z.mod_small by lia.
    unfold Uint8Array.get.
    destruct (Z.ltb_spec (Z.of_nat n) 0) as [?|_]; [lia|].
    rewrite Nat2Z.id, lookup_app_l by lia.
    destruct (lookup_lt_is_Some_2 (shuffle_spec k) n) as [x Hx]; [lia|].
    rewrite Hx. f_equal. simpl.
    pose proof (Forall_lookup_1 _ _ _ _ (shuffle_spec_bytes k) Hx) as Hxr.
    simpl in Hxr. by apply Z.mod_small.
  - rewrite lookup_take_ge by lia. symmetry. apply lookup_ge_None_2. lia.
Qed.

(** C5: after [seed k] the first 256 entries of [perm] are a permutation
    of 0..255: every value in [0, 255] is found at exactly one index in
    [0, 255]. *)
Theorem seed_perm_is_permutation (k : Z) (T : tables) :
  tables_wf T →
  take 256 (perm (seed k T)) ≡ₚ seqZ 0 256 ∧
  ∀ v, 0 ≤ v ≤ 255 →
    ∃ n, (0 ≤ n ≤ 255 ∧ Uint8Array.get (perm (seed k T)) n = Some v) ∧
         ∀ m, 0 ≤ m ≤ 255 → Uint8Array.get (perm (seed k T)) m = Some v → m = n.
Proof.
  intros Hwf.
  pose proof (seed_perm_first_half k T Hwf) as Hhalf.
  pose proof (shuffle_spec_Permutation k) as Hperm.
  rewrite <- Hhalf in Hperm. split; [done|].
  assert (∀ m, 0 ≤ m ≤ 255 →
    Uint8Array.get (perm (seed k T)) m
    = take 256 (perm (seed k T)) !! Z.to_nat m) as Hget.
  { intros m Hm. unfold Uint8Array.get.
    destruct (Z.ltb_spec m 0) as [?|_]; [lia|].
    by rewrite lookup_take_lt by lia. }
  intros v Hv.
  assert (v ∈ take 256 (perm (seed k T))) as Hin
    by (rewrite Hperm; apply elem_of_seqZ; lia).
  apply list_elem_of_lookup in Hin as [n Hn].
  assert (n < 256)%nat as Hnlt.
  { apply lookup_lt_Some in Hn. rewrite length_take in Hn. lia. }
  exists (Z.of_nat n). split.
  - split; [lia|]. rewrite Hget by lia. by rewrite Nat2Z.id.
  - intros m Hm Hmv. rewrite Hget in Hmv by done.
    assert (NoDup (take 256 (perm (seed k T)))) as Hnd
      by (rewrite Hperm; apply NoDup_seqZ).
    pose proof (proj1 (NoDup_alt _) Hnd _ _ _ Hmv Hn). lia.
Qed.

Lemma seed_perm_is_permutation_witness :
  tables_wf initial_tables ∧
  take 256 (perm (seed 1337 initial_tables)) ≡ₚ seqZ 0 256 ∧
  ∀ v, 0 ≤ v ≤ 255 →
    ∃ n, (0 ≤ n ≤ 255 ∧
          Uint8Array.get (perm (seed 1337 initial_tables)) n = Some v) ∧
         ∀ m, 0 ≤ m ≤ 255 →
           Uint8Array.get (perm (seed 1337 initial_tables)) m = Some v → m = n.
Proof.
  assert (tables_wf initial_tables) as Hwf
    by (apply (bool_decide_unpack _); vm_compute; exact I).
  split; [exact Hwf|].
  exact (seed_perm_is_permutation 1337 initial_tables Hwf).
Defined.

(** ** noise and fbm on lattice points *)

(** C1: the documentation of [noise] promises the value 0 on all integer
    coordinates.  After [seed(1337)] the lattice point (1, 0) evaluates
    to -4903851474014918 * 2^-54, about -0.2722, not to 0. *)
Theorem noise_lattice_point_nonzero :
  noise (seed 1337 initial_tables) (JS.of_Z 1) (JS.of_Z 0)
  = S754_finite true 4903851474014918 (-54) ∧
  JS.eqb (noise (seed 1337 initial_tables) (JS.of_Z 1) (JS.of_Z 0)) JS.pzero
  = false.
Proof. split; by vm_compute. Qed.

(** Adding a value to the initial [total], which is +0, returns that
    value, except that -0 becomes +0. *)
Lemma add_pzero_l v :
  (JS.pzero + v)%js = match v with S754_zero true => JS.pzero | _ => v end.
Proof. by destruct v as [[]|[]| |[] m e]. Qed.

Lemma fbm_one_octave T x y amplitude frequency persistence lacunarity :
  fbm T x y 1 amplitude frequency persistence lacunarity
  = (JS.pzero + noise T (x * frequency) (y * frequency) * amplitude)%js.
Proof. reflexivity. Qed.

(** With one octave the sum is the product itself, bit for bit, unless
    the product is -0: added to the initial +0 it gives +0. *)
Lemma fbm_one_octave_exact T x y amp freq pers lac :
  let v := (noise T (x * freq) (y * freq) * amp)%js in
  fbm T x y 1 amp freq pers lac
  = match v with S754_zero true => JS.pzero | _ => v end.
Proof. intros v. rewrite fbm_one_octave. apply add_pzero_l. Qed.

Lemma eqb_refl v : v ≠ JS.nan → JS.eqb v v = true.
Proof.
  intros Hv. destruct v as [s|s| |s m e]; [done|by destruct s|done|].
  unfold JS.eqb, SFeqb, SFcompare.
  rewrite Z.compare_refl, Pos.compare_cont_refl. by destruct s.
Qed.

(** C8: with one octave [fbm] returns the value of
    [noise (x * freq) (y * freq) * amp]: the two compare equal under
    [==], and when the product is NaN so is [fbm]. *)
Theorem fbm_single_octave (T : tables) (x y amp freq pers lac : JS.number) :
  same_number (fbm T x y 1 amp freq pers lac)
              (noise T (x * freq) (y * freq) * amp)%js.
Proof.
  rewrite fbm_one_octave, add_pzero_l. unfold same_number.
  destruct (noise T (x * freq) (y * freq) * amp)%js as [[]|s| |s m e] eqn:Hv.
  - by left.
  - by left.
  - left. by apply eqb_refl.
  - by right.
  - left. by apply eqb_refl.
Qed.

(** * Further properties of the code *)

(** ** The SplitMix32 sequence *)

(** The Weyl increment 0x9e3779b9 is odd, hence invertible modulo 2^32. *)
Lemma weyl_multiple_zero n :
  (n * 0x9e3779b9) mod 2 ^ 32 = 0 ↔ n mod 2 ^ 32 = 0.
Proof.
  split; intros H.
  - replace n with (n * 1) by lia.
    change 1 with ((0x9e3779b9 * 0x144cbc89) mod 2 ^ 32).
    rewrite Z.mul_mod_idemp_r, Z.mul_assoc by lia.
    by rewrite <- Z.mul_mod_idemp_l, H by lia.
  - by rewrite <- Z.mul_mod_idemp_l, H by lia.
Qed.

(** X1: after [n] calls the 32-bit state is the seed advanced by [n]
    times 0x9e3779b9 modulo 2^32, and it is back at its starting value
    exactly when [n] is a multiple of 2^32: the state sequence has
    period 2^32. *)
Theorem splitmix32_state_period (n : nat) (a : Z) :
  splitmix32_state n a mod 2 ^ 32 = (a + Z.of_nat n * 0x9e3779b9) mod 2 ^ 32 ∧
  (splitmix32_state n a mod 2 ^ 32 = a mod 2 ^ 32 ↔ Z.of_nat n mod 2 ^ 32 = 0).
Proof.
  split; [apply splitmix32_state_mod|].
  rewrite splitmix32_state_mod, <- weyl_multiple_zero.
  set (d := Z.of_nat n * 2654435769).
  split; intros H.
  - replace d with ((a + d) - a) by lia.
    by rewrite Zminus_mod, H, Z.sub_diag.
  - by rewrite <- Z.add_mod_idemp_r, H, Z.add_0_r by lia.
Qed.

(** ** The output function of SplitMix32 is one-to-one *)

Lemma uint32_bits_high x n : 0 ≤ x < 2 ^ 32 → 32 ≤ n → Z.testbit x n = false.
Proof.
  intros Hx Hn. rewrite <- (Z.mod_small x (2 ^ 32)) by done.
  apply Z.mod_pow2_bits_high. lia.
Qed.

(** [x ^ (x >>> s)] determines [x]: the top [s] bits are unchanged, and
    each lower bit is recovered from the bit [s] places above it. *)
Lemma xorshift_inj s x y :
  0 < s → 0 ≤ x < 2 ^ 32 → 0 ≤ y < 2 ^ 32 →
  Z.lxor x (Z.shiftr x s) = Z.lxor y (Z.shiftr y s) → x = y.
Proof.
  intros Hs Hx Hy Heq.
  assert (∀ (m : nat) n, 0 ≤ n → 32 - n ≤ Z.of_nat m →
            Z.testbit x n = Z.testbit y n) as Hbits.
  { induction m as [|m IH]; intros n Hn Hm.
    - by rewrite !uint32_bits_high by lia.
    - assert (Z.testbit (Z.lxor x (Z.shiftr x s)) n
              = Z.testbit (Z.lxor y (Z.shiftr y s)) n) as Hb by (by rewrite Heq).
      rewrite !Z.lxor_spec, !Z.shiftr_spec in Hb by done.
      rewrite (IH (n + s)) in Hb by lia.
      by destruct (Z.testbit x n), (Z.testbit y n), (Z.testbit y (n + s)). }
  apply Z.bits_inj'. intros n Hn.
  apply (Hbits (Z.to_nat (32 - n))); lia.
Qed.

(** Multiplication by a constant that has an inverse modulo 2^32. *)
Lemma mul_mod_inj c c' x y :
  (c * c') mod 2 ^ 32 = 1 →
  0 ≤ x < 2 ^ 32 → 0 ≤ y < 2 ^ 32 →
  (x * c) mod 2 ^ 32 = (y * c) mod 2 ^ 32 → x = y.
Proof.
  intros Hc Hx Hy Heq.
  assert (∀ z, 0 ≤ z < 2 ^ 32 → z = ((z * c) mod 2 ^ 32 * c') mod 2 ^ 32) as Hinv.
  { intros z Hz. rewrite Z.mul_mod_idemp_l, <- Z.mul_assoc by lia.
    rewrite <- Z.mul_mod_idemp_r, Hc, Z.mul_1_r by lia.
    by rewrite Z.mod_small. }
  rewrite (Hinv x Hx), (Hinv y Hy). by rewrite Heq.
Qed.

Lemma splitmix32_spec_inj a b :
  0 ≤ a < 2 ^ 32 → 0 ≤ b < 2 ^ 32 →
  snd (splitmix32_spec a) = snd (splitmix32_spec b) → a = b.
Proof.
  intros Ha Hb. unfold splitmix32_spec. cbn [snd]. intros H.
  assert (∀ z, 0 ≤ z mod 2 ^ 32 < 2 ^ 32) as Hm
    by (intros z; apply Z.mod_pos_bound; lia).
  assert (∀ z, 0 ≤ z < 2 ^ 32 → 0 ≤ Z.lxor z (Z.shiftr z 15) < 2 ^ 32) as Hx15
    by (intros z Hz; apply lxor_uint32; [done|by apply shiftr_uint32]).
  assert (∀ z, 0 ≤ z < 2 ^ 32 → 0 ≤ Z.lxor z (Z.shiftr z 16) < 2 ^ 32) as Hx16
    by (intros z Hz; apply lxor_uint32; [done|by apply shiftr_uint32]).
  apply xorshift_inj in H; [|lia|done|done].
  apply (mul_mod_inj _ 0x97132227) in H; [|done|by apply Hx15|by apply Hx15].
  apply xorshift_inj in H; [|lia|done|done].
  apply (mul_mod_inj _ 0x333c4925) in H; [|done|by apply Hx16|by apply Hx16].
  apply xorshift_inj in H; [|lia|done|done].
  assert (a = ((a + 2654435769) mod 2 ^ 32 + 0x61c88647) mod 2 ^ 32) as ->.
  { rewrite Z.add_mod_idemp_l, <- Z.add_assoc by lia.
    change (2654435769 + 0x61c88647) with (1 * 2 ^ 32).
    by rewrite Z.mod_add, Z.mod_small by lia. }
  rewrite H. rewrite Z.add_mod_idemp_l, <- Z.add_assoc by lia.
  change (2654435769 + 0x61c88647) with (1 * 2 ^ 32).
  by rewrite Z.mod_add, Z.mod_small by lia.
Qed.

Lemma exact_double_inj t t' e :
  0 ≤ t < 2 ^ 53 → 0 ≤ t' < 2 ^ 53 →
  exact_double t e = exact_double t' e → t = t'.
Proof.
  intros Ht Ht' H.
  destruct t as [|p|p], t' as [|p'|p']; try done; try lia.
  destruct (exact_mantissa (Z.pos p)) as (Hl & Hm & _); [lia|].
  destruct (exact_mantissa (Z.pos p')) as (Hl' & Hm' & _); [lia|].
  unfold exact_double in H.
  set (l := Z.log2 (Z.pos p)) in *. set (l' := Z.log2 (Z.pos p')) in *.
  injection H as Hmant Hexp.
  assert (l = l') as Hlog by lia.
  rewrite Hlog in *. rewrite Hmant in Hm. rewrite Hm' in Hm.
  assert (0 < 2 ^ (52 - l')) by (apply Z.pow_pos_nonneg; lia).
  nia.
Qed.

(** X2: the number returned by a call determines the 32-bit state it was
    computed from: two states that give the same output are congruent
    modulo 2^32.  Over one period of the state no output repeats. *)
Theorem splitmix32_output_injective (a b : Z) :
  snd (splitmix32 a) = snd (splitmix32 b) → a mod 2 ^ 32 = b mod 2 ^ 32.
Proof.
  intros H.
  pose proof (splitmix32_draw a) as Ha.
  pose proof (splitmix32_draw b) as Hb.
  destruct (splitmix32_spec (a mod 2 ^ 32)) as [sa ta] eqn:Hsa.
  destruct (splitmix32_spec (b mod 2 ^ 32)) as [sb tb] eqn:Hsb.
  destruct Ha as [Ha Hta], Hb as [Hb Htb].
  rewrite Ha, Hb in H. cbn [snd] in H. apply exact_double_inj in H; [|lia|lia].
  apply splitmix32_spec_inj; try (apply Z.mod_pos_bound; lia).
  by rewrite Hsa, Hsb, H.
Qed.

Lemma splitmix32_output_injective_witness :
  snd (splitmix32 5) = snd (splitmix32 (5 - 2 ^ 32)) ∧
  5 mod 2 ^ 32 = (5 - 2 ^ 32) mod 2 ^ 32.
Proof.
  assert (snd (splitmix32 5) = snd (splitmix32 (5 - 2 ^ 32))) as H
    by (vm_compute; reflexivity).
  split; [exact H|].
  exact (splitmix32_output_injective 5 (5 - 2 ^ 32) H).
Defined.

(** ** The tables after seeding *)

(** X3: only the low 32 bits of the seed matter: two seeds that are
    congruent modulo 2^32 build the same tables, from any earlier table
    states. *)
Theorem seed_low_32_bits (k k' : Z) (T T' : tables) :
  tables_wf T → tables_wf T' →
  k mod 2 ^ 32 = k' mod 2 ^ 32 →
  seed k T = seed k' T'.
Proof.
  intros HT HT' Hk.
  rewrite (seed_tables_of k T HT), (seed_tables_of k' T' HT').
  rewrite !seed_working_array_shuffle.
  unfold shuffle_spec. by rewrite Hk.
Qed.

Lemma seed_low_32_bits_witness :
  (tables_wf initial_tables ∧ tables_wf (seed 7 initial_tables) ∧
   1337 mod 2 ^ 32 = (1337 + 3 * 2 ^ 32) mod 2 ^ 32) ∧
  seed 1337 initial_tables = seed (1337 + 3 * 2 ^ 32) (seed 7 initial_tables).
Proof.
  assert (tables_wf initial_tables) as H1
    by (apply (bool_decide_unpack _); vm_compute; exact I).
  assert (tables_wf (seed 7 initial_tables)) as H2
    by (apply (bool_decide_unpack _); vm_compute; exact I).
  assert (1337 mod 2 ^ 32 = (1337 + 3 * 2 ^ 32) mod 2 ^ 32) as H3
    by reflexivity.
  split; [exact (conj H1 (conj H2 H3))|].
  exact (seed_low_32_bits 1337 (1337 + 3 * 2 ^ 32) initial_tables
           (seed 7 initial_tables) H1 H2 H3).
Defined.

(** X4: after [seed k] every entry of [permMod12] is a gradient index in
    [0, 11], and [permMod12] repeats with period 256 like [perm]. *)
Theorem seed_permMod12_range (k : Z) (T : tables) :
  tables_wf T →
  let T' := seed k T in
  (∀ n, 0 ≤ n ≤ 511 →
     ∃ g, Uint8Array.get (permMod12 T') n = Some g ∧ 0 ≤ g ≤ 11) ∧
  (∀ n, 0 ≤ n ≤ 255 →
     Uint8Array.get (permMod12 T') (n + 256) = Uint8Array.get (permMod12 T') n).
Proof.
  intros Hwf T'. unfold T'. rewrite (seed_tables_of k T Hwf). split.
  - intros n Hn. eexists. split; [by apply tables_of_get_permMod12|].
    match goal with |- 0 ≤ ?v mod 12 ≤ 11 =>
      pose proof (Z.mod_pos_bound v 12) end. lia.
  - intros n Hn. rewrite !tables_of_get_permMod12 by lia.
    rewrite !land_255_mod.
    replace (n + 256) with (n + 1 * 256) by lia.
    by rewrite Z.mod_add by lia.
Qed.

Lemma seed_permMod12_range_witness :
  tables_wf initial_tables ∧
  let T' := seed 1337 initial_tables in
  (∀ n, 0 ≤ n ≤ 511 →
     ∃ g, Uint8Array.get (permMod12 T') n = Some g ∧ 0 ≤ g ≤ 11) ∧
  (∀ n, 0 ≤ n ≤ 255 →
     Uint8Array.get (permMod12 T') (n + 256) = Uint8Array.get (permMod12 T') n).
Proof.
  assert (tables_wf initial_tables) as Hwf
    by (apply (bool_decide_unpack _); vm_compute; exact I).
  split; [exact Hwf|].
  exact (seed_permMod12_range 1337 initial_tables Hwf).
Defined.

(** X5: once the tables are seeded, the three hashes that [noise] hands
    to [grad] are gradient indices in [0, 11], for every input point:
    the cases 12..15 of [grad] are never reached. *)
Theorem noise_hashes_below_12 (k : Z) (T : tables) (xin yin : JS.number) :
  tables_wf T →
  let T' := seed k T in
  let c := simplex_cell xin yin in
  ∀ di dj, (di, dj) ∈ [(0, 0); (cell_i1 c, cell_j1 c); (1, 1)] →
    ∃ g, gradient_index T' (cell_i c) di (cell_j c) dj = Some g ∧
         hash_of (Some g) = g ∧ 0 ≤ g ≤ 11.
Proof.
  intros Hwf T' c di dj Hin. subst T' c.
  pose proof (seed_wf k T Hwf) as Hwf'.
  pose proof (simplex_cell_masked xin yin) as [Hi Hj].
  pose proof (simplex_cell_middle xin yin) as Hmid.
  cbv zeta in Hi, Hj, Hmid.
  assert (0 ≤ di ≤ 1 ∧ 0 ≤ dj ≤ 1) as [Hdi Hdj].
  { rewrite !elem_of_cons, elem_of_nil in Hin.
    destruct Hin as [Heq|[Heq|[Heq|[]]]], Hmid as [Hm|Hm];
      rewrite ?Hm in Heq; injection Heq as -> ->; lia. }
  destruct (gradient_index_in_bounds (seed k T) _ di _ dj Hwf' Hi Hj Hdi Hdj)
    as (v & g & _ & Hc & Hr & Hg & _).
  exists g. split; [done|]. split; [done|].
  unfold gradient_index, Uint8Array.get_at in Hg. rewrite Hc in Hg.
  cbn [mbind option_bind] in Hg.
  rewrite (seed_tables_of k T Hwf), tables_of_get_permMod12 in Hg by done.
  injection Hg as <-.
  match goal with |- 0 ≤ ?w mod 12 ≤ 11 =>
    pose proof (Z.mod_pos_bound w 12) end. lia.
Qed.

Lemma noise_hashes_below_12_witness :
  tables_wf initial_tables ∧
  let T' := seed 1337 initial_tables in
  let c := simplex_cell (JS.dyadic 5 (-1)) (JS.of_Z (-3)) in
  ∀ di dj, (di, dj) ∈ [(0, 0); (cell_i1 c, cell_j1 c); (1, 1)] →
    ∃ g, gradient_index T' (cell_i c) di (cell_j c) dj = Some g ∧
         hash_of (Some g) = g ∧ 0 ≤ g ≤ 11.
Proof.
  assert (tables_wf initial_tables) as Hwf
    by (apply (bool_decide_unpack _); vm_compute; exact I).
  split; [exact Hwf|].
  exact (noise_hashes_below_12 1337 initial_tables (JS.dyadic 5 (-1))
           (JS.of_Z (-3)) Hwf).
Defined.

(** X6: the gradient indices are not spread evenly, and not by chance:
    among [permMod12[0..255]] each of the indices 0..3 occurs 22 times
    and each of 4..11 occurs 21 times, whatever the seed. *)
Theorem seed_gradient_histogram (k : Z) (T : tables) (g : Z) :
  tables_wf T → 0 ≤ g ≤ 11 →
  length (filter (λ v, v = g) (take 256 (permMod12 (seed k T))))
  = if g <? 4 then 22%nat else 21%nat.
Proof.
  intros Hwf Hg.
  assert (take 256 (permMod12 (seed k T))
          = (λ v, v mod 12) <$> take 256 (perm (seed k T))) as ->.
  { rewrite (seed_tables_of k T Hwf). unfold tables_of. cbn [perm permMod12].
    by rewrite fmap_take. }
  rewrite (seed_perm_first_half k T Hwf), shuffle_spec_Permutation.
  assert (g ∈ seqZ 0 12) as Hin by (apply elem_of_seqZ; lia).
  vm_compute seqZ in Hin.
  repeat (apply elem_of_cons in Hin as [->|Hin]; [by vm_compute|]).
  by apply elem_of_nil in Hin.
Qed.

Lemma seed_gradient_histogram_witness :
  (tables_wf initial_tables ∧ 0 ≤ 3 ≤ 11) ∧
  length (filter (λ v, v = 3) (take 256 (permMod12 (seed 1337 initial_tables))))
  = if 3 <? 4 then 22%nat else 21%nat.
Proof.
  assert (tables_wf initial_tables) as Hwf
    by (apply (bool_decide_unpack _); vm_compute; exact I).
  assert (0 ≤ 3 ≤ 11) as Hg by lia.
  split; [exact (conj Hwf Hg)|].
  exact (seed_gradient_histogram 1337 initial_tables 3 Hwf Hg).
Defined.

(** ** noise on non-finite input and at the origin *)

Lemma noise_nan_of_non_finite T xin yin :
  is_finite xin = false ∨ is_finite yin = false → noise T xin yin = JS.nan.
Proof.
  destruct xin as [[]|[]| |[] mx ex], yin as [[]|[]| |[] my ey];
    intros [H|H]; try discriminate H; reflexivity.
Qed.

(** X7: a NaN or infinite coordinate never faults and never yields a
    number: [noise] returns NaN, whatever the other coordinate and the
    tables are. *)
Theorem noise_non_finite (T : tables) (xin yin : JS.number) :
  is_finite xin = false ∨ is_finite yin = false → noise T xin yin = JS.nan.
Proof. apply noise_nan_of_non_finite. Qed.

Lemma noise_non_finite_witness :
  (is_finite (S754_infinity true) = false ∨ is_finite (JS.of_Z 2) = false) ∧
  noise (seed 1337 initial_tables) (S754_infinity true) (JS.of_Z 2) = JS.nan.
Proof.
  assert (is_finite (S754_infinity true) = false ∨ is_finite (JS.of_Z 2) = false)
    as H by (left; reflexivity).
  split; [exact H|].
  exact (noise_non_finite (seed 1337 initial_tables) (S754_infinity true)
           (JS.of_Z 2) H).
Defined.

Lemma grad_of_zeros hash s1 s2 :
  ∃ s, grad hash (S754_zero s1) (S754_zero s2) = S754_zero s.
Proof.
  unfold grad.
  destruct (_ <? 8), (_ <? 4), (_ =? 0), (_ =? 0), s1, s2;
    eexists; reflexivity.
Qed.

(** X8: at the origin (either sign of zero on each coordinate) [noise]
    returns +0 for every state of the tables, seeded or not, and
    whatever gradient the tables select. *)
Theorem noise_origin (T : tables) (s1 s2 : bool) :
  noise T (S754_zero s1) (S754_zero s2) = JS.pzero.
Proof.
  unfold noise.
  assert (∃ s1' s2', simplex_cell (S754_zero s1) (S754_zero s2)
          = Cell (S754_zero s1') (S754_zero s2') 0 1 0 0) as (s1' & s2' & ->)
    by (destruct s1, s2; do 2 eexists; vm_compute; reflexivity).
  unfold corner at 1.
  destruct (grad_of_zeros (hash_of (gradient_index T 0 0 0 0)) s1' s2')
    as [s ->].
  by destruct s, s1', s2'.
Qed.

(** ** fbm, octave by octave *)

Lemma fbm_loop_state T x y (n : nat) amplitude frequency persistence lacunarity :
  JS.for_upto (Z.of_nat n) (fbm_step T x y persistence lacunarity)
    (JS.pzero, amplitude, frequency)
  = (fbm T x y (Z.of_nat n) amplitude frequency persistence lacunarity,
     octave_scale n amplitude persistence,
     octave_scale n frequency lacunarity).
Proof.
  unfold fbm. induction n as [|n IH]; [done|].
  rewrite for_upto_foldl, seqZ_S, foldl_app, <- for_upto_foldl in *.
  rewrite IH. cbn [foldl fbm_step octave_scale]. done.
Qed.

(** X9: the octaves accumulate from the left.  With [n + 1] octaves
    [fbm] returns its value for [n] octaves plus the sample of octave
    [n], taken at the coordinates scaled by [frequency * lacunarity^n]
    and weighted by [amplitude * persistence^n], each power being [n]
    successive double multiplications. *)
Theorem fbm_next_octave (T : tables) (x y : JS.number) (n : nat)
    (amplitude frequency persistence lacunarity : JS.number) :
  fbm T x y (Z.of_nat (S n)) amplitude frequency persistence lacunarity
  = (fbm T x y (Z.of_nat n) amplitude frequency persistence lacunarity
     + noise T (x * octave_scale n frequency lacunarity)
               (y * octave_scale n frequency lacunarity)
       * octave_scale n amplitude persistence)%js.
Proof.
  unfold fbm at 1.
  rewrite for_upto_foldl, seqZ_S, foldl_app, <- for_upto_foldl.
  by rewrite fbm_loop_state.
Qed.

Lemma mul_non_finite x f : is_finite x = false → is_finite (x * f)%js = false.
Proof.
  by destruct x as [[]|[]| |[] mx ex], f as [[]|[]| |[] mf ef].
Qed.

Lemma add_nan_r v : (v + JS.nan)%js = JS.nan.
Proof. by destruct v as [[]|[]| |[] m e]. Qed.

(** X10: a NaN or infinite coordinate poisons the whole sum: with at
    least one octave [fbm] returns NaN, for all amplitudes, frequencies
    and tables. *)
Theorem fbm_non_finite (T : tables) (x y : JS.number) (octaves : Z)
    (amplitude frequency persistence lacunarity : JS.number) :
  1 ≤ octaves →
  is_finite x = false ∨ is_finite y = false →
  fbm T x y octaves amplitude frequency persistence lacunarity = JS.nan.
Proof.
  intros Hoct Hxy. unfold fbm.
  pose (P := λ (i : Z) (st : JS.number * JS.number * JS.number),
    1 ≤ i → st.1.1 = JS.nan).
  assert (P octaves (JS.for_upto octaves
    (fbm_step T x y persistence lacunarity) (JS.pzero, amplitude, frequency)))
    as HP.
  { apply for_upto_ind; [lia| |].
    - intros ?. lia.
    - intros i [[total a] f] Hi _ _. unfold fbm_step. cbn [fst].
      rewrite noise_nan_of_non_finite.
      + by rewrite add_nan_r.
      + destruct Hxy as [Hx|Hy]; [left|right]; by apply mul_non_finite. }
  destruct (JS.for_upto _ _ _) as [[total a] f]. by apply HP.
Qed.

Lemma fbm_non_finite_witness :
  (1 ≤ 3 ∧ (is_finite JS.nan = false ∨ is_finite (JS.of_Z 1) = false)) ∧
  fbm (seed 1337 initial_tables) JS.nan (JS.of_Z 1) 3
    (JS.of_Z 1) (JS.of_Z 1) (JS.dyadic 1 (-1)) (JS.of_Z 2) = JS.nan.
Proof.
  assert (1 ≤ 3) as H1 by lia.
  assert (is_finite JS.nan = false ∨ is_finite (JS.of_Z 1) = false) as H2
    by (left; reflexivity).
  split; [exact (conj H1 H2)|].
  exact (fbm_non_finite (seed 1337 initial_tables) JS.nan (JS.of_Z 1) 3
           (JS.of_Z 1) (JS.of_Z 1) (JS.dyadic 1 (-1)) (JS.of_Z 2) H1 H2).
Defined.

(** X11: a negative octave count is not an error: the loop test fails at
    once, as for zero octaves, and [fbm] returns +0 without sampling
    [noise]. *)
Theorem fbm_negative_octaves (T : tables) (x y : JS.number) (octaves : Z)
    (amplitude frequency persistence lacunarity : JS.number) :
  octaves < 0 →
  fbm T x y octaves amplitude frequency persistence lacunarity = JS.pzero.
Proof. intros H. unfold fbm. by rewrite for_upto_nonpos by lia. Qed.

Lemma fbm_negative_octaves_witness :
  -2 < 0 ∧
  fbm initial_tables JS.nan (JS.of_Z 1) (-2)
    (JS.of_Z 1) (JS.of_Z 1) (JS.of_Z 1) (JS.of_Z 1) = JS.pzero.
Proof.
  assert (-2 < 0) as H by lia.
  split; [exact H|].
  exact (fbm_negative_octaves initial_tables JS.nan (JS.of_Z 1) (-2)
           (JS.of_Z 1) (JS.of_Z 1) (JS.of_Z 1) (JS.of_Z 1) H).
Defined.
